(** * 3-Color-Approximation: supervisor, generators and the circular buffer

    A shallow embedding of [sharedmem.h], [sharedmem.c], [generatormain.c]
    and [supervisormain.c].

    - C [int]s are [Z] with the 32-bit wrap-around written out ([wrap_int]).
    - C arrays are lists read and written by index; an access outside the
      array has no defined result ([None]).
    - The supervisor and the generators are separate processes.  Each one is
      a record of its local variables and a program point; one step of the
      system is one step of one process ([sys_step]), a run is a list of
      such steps ([run]).  The shared segment and the three named semaphores
      are fields of the system state.  Every [sem_wait] and [sem_post] is a
      step of its own, and so is every statement that reads or writes the
      segment.
    - The arguments of a generator are taken as [sscanf] has read them, a
      pair of [int]s each.  The teardown of both programs ([closeSemaphores],
      [unmapSHM], [unlinkRessources]) is outside the model: a process that
      reaches it takes no further step. *)

From stdpp Require Import base option list list_numbers numbers strings.

Local Open Scope Z_scope.

(** ** Constants of [sharedmem.h] *)

Definition MAX_DATA : Z := 128.
Definition MAX_SOLUTION_EDGES : Z := 12.
Definition INT_MAX : Z := 2147483647.

(** [sizeof] of a pointer, in bytes.  The parameters [edges_to_read] and
    [edges_to_write] are declared as arrays, hence are pointers, and
    [sizeof(edges_to_read)] is the size of a pointer: 8 on LP64, 4 on ILP32. *)
Definition sizeof_ptr : Z := 8.

(** ** Integer and array primitives *)

(** Result of an [int] operation, reduced to 32 bits, two's complement. *)
Definition wrap_int (z : Z) : Z := (z + 2 ^ 31) `mod` 2 ^ 32 - 2 ^ 31.

(** Conversion of an [int] to [size_t] when a pointer has [psz] bytes. *)
Definition to_size_t (psz : Z) (z : Z) : Z := z `mod` 2 ^ (8 * psz).

(** [a[i]] for an [int] index. *)
Definition aget {A} (a : list A) (i : Z) : option A :=
  if decide (0 <= i) then a !! Z.to_nat i else None.

(** [a[i] = x] for an [int] index. *)
Definition aset {A} (a : list A) (i : Z) (x : A) : option (list A) :=
  if decide (0 <= i < Z.of_nat (length a)) then Some (<[Z.to_nat i := x]> a) else None.

(** ** Data of [sharedmem.h] *)

Record edge := mkEdge { source : Z; destination : Z }.

Record removedEdge := mkRemovedEdge { numOfEdges : Z; edges : list edge }.

Record myshm := mkShm {
  state : Z;
  generator_count : Z;
  removed_edges : list removedEdge
}.

(** ** The colouring heuristic of [sharedmem.c] *)

(** [randomizeColors]: [rand] is the sequence that [rand()] returns after
    [srand], [calls] the number of calls made so far. *)
Fixpoint randomize_loop (iters : nat) (rand : nat -> Z) (calls : nat) (v : Z)
    (color_indices : list Z) : option (list Z * nat) :=
  match iters with
  | O => Some (color_indices, calls)
  | S k =>
      let random_num := wrap_int (1 + Z.rem (rand calls) 3) in
      cs ← aset color_indices v random_num;
      randomize_loop k rand (S calls) (wrap_int (v + 1)) cs
  end.

Definition randomizeColors (rand : nat -> Z) (calls : nat) (numOfVertices : Z)
    (color_indices : list Z) : option (list Z * nat) :=
  randomize_loop (Z.to_nat numOfVertices) rand calls 0 color_indices.

(** The body of the [for] loop of [solveColorProblem], run [iters] times
    from index [e]. *)
Fixpoint solve_loop (iters : nat) (color_indices : list Z) (edges_in : list edge)
    (e : Z) (removed : list edge) (rem_count : Z) : option (list edge * Z) :=
  match iters with
  | O => Some (removed, rem_count)
  | S k =>
      ed ← aget edges_in e;
      let src := source ed in
      let dst := destination ed in
      color1 ← aget color_indices src;
      color2 ← aget color_indices dst;
      if decide (color1 = color2) then
        old ← aget removed rem_count;
        r1 ← aset removed rem_count (mkEdge (source old) src);
        old1 ← aget r1 rem_count;
        r2 ← aset r1 rem_count (mkEdge dst (destination old1));
        solve_loop k color_indices edges_in (wrap_int (e + 1)) r2 (wrap_int (rem_count + 1))
      else
        solve_loop k color_indices edges_in (wrap_int (e + 1)) removed rem_count
  end.

(** [solveColorProblem]: returns the array [removed_edges] as it is left
    and the value stored in [*removed_edges_count]. *)
Definition solveColorProblem (color_indices : list Z) (removed : list edge)
    (edges_in : list edge) (numOfEdges_in : Z) : option (list edge * Z) :=
  solve_loop (Z.to_nat numOfEdges_in) color_indices edges_in 0 removed 0.

(** ** Start of the generator: the vertex count *)

(** First loop of the generator's [main] over the parsed arguments; each
    argument [a-b] has been read by [sscanf] into [(edge1, edge2)]. *)
Fixpoint scan_max (args : list (Z * Z)) (max : Z) : Z :=
  match args with
  | [] => max
  | (edge1, edge2) :: rest =>
      scan_max rest (if decide (edge1 > edge2) then edge1 else edge2)
  end.

Definition numOfVertices_of (args : list (Z * Z)) : Z :=
  wrap_int (scan_max args (-1) + 1).

Definition numOfEdges_of (args : list (Z * Z)) : Z :=
  Z.of_nat (length args).

(** Second loop: the array [edges]. *)
Definition edges_of (args : list (Z * Z)) : list edge :=
  map (fun a => mkEdge (fst a) (snd a)) args.

(** ** Cursor of the circular buffer *)

(** [pos += 1; pos %= sizeof(array parameter);] where a pointer has [psz]
    bytes: the left operand is converted to [size_t], the result back to
    [int]. *)
Definition next_pos_on (psz : Z) (pos : Z) : Z :=
  wrap_int (to_size_t psz (wrap_int (pos + 1)) `mod` psz).

Definition next_pos (pos : Z) : Z := next_pos_on sizeof_ptr pos.

(** ** Semaphores *)

Record semaphores := mkSems { used_sem : Z; free_sem : Z; mutex_sem : Z }.

Inductive sem_name := USED_SEM | FREE_SEM | MUTEX_SEM.

Definition sem_value (n : sem_name) (ss : semaphores) : Z :=
  match n with
  | USED_SEM => used_sem ss
  | FREE_SEM => free_sem ss
  | MUTEX_SEM => mutex_sem ss
  end.

Definition sem_store (n : sem_name) (v : Z) (ss : semaphores) : semaphores :=
  match n with
  | USED_SEM => mkSems v (free_sem ss) (mutex_sem ss)
  | FREE_SEM => mkSems (used_sem ss) v (mutex_sem ss)
  | MUTEX_SEM => mkSems (used_sem ss) (free_sem ss) v
  end.

(** What a system call of a step returns: 0 ([Success]) or -1 ([Failure],
    for instance [EINTR] when a handled signal interrupts [sem_wait]). *)
Inductive outcome := Success | Failure.

(** [sem_wait]: [None] while the caller is blocked.  A failing call leaves
    the semaphore as it is. *)
Definition sem_wait (n : sem_name) (o : outcome) (ss : semaphores) : option semaphores :=
  match o with
  | Failure => Some ss
  | Success =>
      if decide (0 < sem_value n ss) then Some (sem_store n (sem_value n ss - 1) ss)
      else None
  end.

Definition sem_post (n : sem_name) (o : outcome) (ss : semaphores) : semaphores :=
  match o with
  | Failure => ss
  | Success => sem_store n (sem_value n ss + 1) ss
  end.

(** ** What the processes print *)

Inductive output :=
| Diag (msg : string)                      (* printErrAndExit, on stderr *)
| Solution (k : Z) (es : list (Z * Z))     (* "Solution with k edges: s - d ..." *)
| BestFound (k : Z)                        (* "Best found solution: k edges" *)
| ThreeColorable.                          (* "The graph is 3-colorable!" *)

(** ** The supervisor *)

Inductive sup_pc :=
| S_initializeSemaphores   (* initializeSignalHandling(); initializeSemaphores(); *)
| S_createSHM              (* createSHMFileDescriptor(); createMappedSHMObject(); *)
| S_zero_count             (* myshm->generator_count = 0; curr_best_solution = INT_MAX; *)
| S_while_quit             (* while (!quit) *)
| S_read_wait              (* readBuff: sem_wait(used_sem); *)
| S_read_count             (* readBuff: removed_edges_count = edges_to_read[rd_pos].numOfEdges; *)
| S_read_post              (* readBuff: sem_post(free_sem); *)
| S_read_advance           (* readBuff: rd_pos += 1; rd_pos %= sizeof(edges_to_read); return *)
| S_compare                (* if (temp == 0) ... if (temp < curr_best_solution) ... *)
| S_lock                   (* sem_wait(mutex_sem); *)
| S_set_state              (* myshm->state = 1; *)
| S_unlock                 (* sem_post(mutex_sem); i = 0; *)
| S_fan_test               (* i < myshm->generator_count *)
| S_fan_post               (* sem_post(free_sem); i++ *)
| S_summary                (* the two final printf *)
| S_teardown               (* closeSemaphores, unmapSHM, unlinkRessources: not modelled *)
| S_exit_failure.          (* after printErrAndExit *)

Record supervisor := mkSup {
  s_pc : sup_pc;
  quit : Z;
  rd_pos : Z;
  curr_best_solution : Z;
  r_count : Z;       (* removed_edges_count of readBuff *)
  temp : Z;
  fan_i : Z;         (* i of the last for loop *)
  s_out : list output
}.

Definition sup_at (pc : sup_pc) (s : supervisor) : supervisor :=
  mkSup pc (quit s) (rd_pos s) (curr_best_solution s) (r_count s) (temp s) (fan_i s) (s_out s).
Definition sup_quit (q : Z) (s : supervisor) : supervisor :=
  mkSup (s_pc s) q (rd_pos s) (curr_best_solution s) (r_count s) (temp s) (fan_i s) (s_out s).
Definition sup_rd_pos (p : Z) (s : supervisor) : supervisor :=
  mkSup (s_pc s) (quit s) p (curr_best_solution s) (r_count s) (temp s) (fan_i s) (s_out s).
Definition sup_best (b : Z) (s : supervisor) : supervisor :=
  mkSup (s_pc s) (quit s) (rd_pos s) b (r_count s) (temp s) (fan_i s) (s_out s).
Definition sup_r_count (c : Z) (s : supervisor) : supervisor :=
  mkSup (s_pc s) (quit s) (rd_pos s) (curr_best_solution s) c (temp s) (fan_i s) (s_out s).
Definition sup_temp (t : Z) (s : supervisor) : supervisor :=
  mkSup (s_pc s) (quit s) (rd_pos s) (curr_best_solution s) (r_count s) t (fan_i s) (s_out s).
Definition sup_fan_i (i : Z) (s : supervisor) : supervisor :=
  mkSup (s_pc s) (quit s) (rd_pos s) (curr_best_solution s) (r_count s) (temp s) i (s_out s).
Definition sup_print (o : output) (s : supervisor) : supervisor :=
  mkSup (s_pc s) (quit s) (rd_pos s) (curr_best_solution s) (r_count s) (temp s) (fan_i s)
        (s_out s ++ [o]).

(** [printErrAndExit]. *)
Definition sup_fail (msg : string) (s : supervisor) : supervisor :=
  sup_at S_exit_failure (sup_print (Diag msg) s).

Definition init_supervisor : supervisor :=
  mkSup S_initializeSemaphores 0 0 0 0 0 0 [].

(** ** The generator *)

Inductive gen_pc :=
| G_start            (* main up to and including initializeSemaphores() *)
| G_reg_post         (* sem_post(mutex_sem); *)
| G_reg_incr         (* myshm->generator_count += 1; *)
| G_reg_wait         (* sem_wait(mutex_sem); *)
| G_while_state      (* while (myshm->state != 1) if (removed_edges_count <= MAX_SOLUTION_EDGES) *)
| G_pub_post         (* sem_post(mutex_sem); *)
| G_write_wait       (* writeBuff: sem_wait(free_sem); *)
| G_write_slot       (* writeBuff: edges_to_write[wr_pos] = ... *)
| G_write_post       (* writeBuff: sem_post(used_sem); *)
| G_write_advance    (* writeBuff: wr_pos += 1; wr_pos %= sizeof(edges_to_write); *)
| G_pub_wait         (* sem_wait(mutex_sem); *)
| G_next_candidate   (* randomizeColors; removed_edges_count = 0; solveColorProblem *)
| G_teardown         (* unmapSHM, closeSemaphores: not modelled *)
| G_exit_failure.    (* after printErrAndExit *)

Record generator := mkGen {
  g_pc : gen_pc;
  g_args : list (Z * Z);      (* argv[1..], each read by sscanf as edge1-edge2 *)
  g_rand : nat -> Z;          (* the values rand() returns, in order *)
  g_calls : nat;              (* calls of rand() so far *)
  wr_pos : Z;
  numOfVertices : Z;
  g_numOfEdges : Z;
  color_indices : list Z;
  g_edges : list edge;
  g_removed_edges : list edge;
  removed_edges_count : Z;
  g_out : list output
}.

Definition gen_at (pc : gen_pc) (g : generator) : generator :=
  mkGen pc (g_args g) (g_rand g) (g_calls g) (wr_pos g) (numOfVertices g) (g_numOfEdges g)
        (color_indices g) (g_edges g) (g_removed_edges g) (removed_edges_count g) (g_out g).
Definition gen_wr_pos (p : Z) (g : generator) : generator :=
  mkGen (g_pc g) (g_args g) (g_rand g) (g_calls g) p (numOfVertices g) (g_numOfEdges g)
        (color_indices g) (g_edges g) (g_removed_edges g) (removed_edges_count g) (g_out g).
Definition gen_graph (nv ne : Z) (es : list edge) (g : generator) : generator :=
  mkGen (g_pc g) (g_args g) (g_rand g) (g_calls g) (wr_pos g) nv ne
        (color_indices g) es (g_removed_edges g) (removed_edges_count g) (g_out g).
Definition gen_candidate (calls : nat) (cs : list Z) (rem : list edge) (cnt : Z)
    (g : generator) : generator :=
  mkGen (g_pc g) (g_args g) (g_rand g) calls (wr_pos g) (numOfVertices g) (g_numOfEdges g)
        cs (g_edges g) rem cnt (g_out g).
Definition gen_fail (msg : string) (g : generator) : generator :=
  mkGen G_exit_failure (g_args g) (g_rand g) (g_calls g) (wr_pos g) (numOfVertices g)
        (g_numOfEdges g) (color_indices g) (g_edges g) (g_removed_edges g)
        (removed_edges_count g) (g_out g ++ [Diag msg]).

Definition init_generator (args : list (Z * Z)) (rand : nat -> Z) : generator :=
  mkGen G_start args rand 0%nat 0 0 0 [] [] [] 0 [].

(** [randomizeColors(...); removed_edges_count = 0; solveColorProblem(...);] *)
Definition propose (g : generator) : option generator :=
  '(cs, calls) ← randomizeColors (g_rand g) (g_calls g) (numOfVertices g) (color_indices g);
  '(rem, cnt) ← solveColorProblem cs (g_removed_edges g) (g_edges g) (g_numOfEdges g);
  Some (gen_candidate calls cs rem cnt g).

(** The declarations of [main] before the attach: the three arrays have
    automatic storage, their cells are written before they are read. *)
Definition gen_locals (g : generator) : generator :=
  let nv := numOfVertices_of (g_args g) in
  let ne := numOfEdges_of (g_args g) in
  gen_candidate (g_calls g) (replicate (Z.to_nat nv) 0) (replicate (Z.to_nat ne) (mkEdge 0 0)) 0
    (gen_graph nv ne (edges_of (g_args g)) g).

(** The copy loop of [writeBuff]. *)
Fixpoint write_loop (iters : nat) (j : Z) (removed : list edge) (slot_edges : list edge)
    : option (list edge) :=
  match iters with
  | O => Some slot_edges
  | S k =>
      r ← aget removed j;
      old ← aget slot_edges j;
      s1 ← aset slot_edges j (mkEdge (source r) (destination old));
      old1 ← aget s1 j;
      s2 ← aset s1 j (mkEdge (source old1) (destination r));
      write_loop k (wrap_int (j + 1)) removed s2
  end.

(** The stores of [writeBuff] into the slot at [wr_pos]. *)
Definition write_slot (val : Z) (removed : list edge) (pos : Z)
    (buf : list removedEdge) : option (list removedEdge) :=
  slot ← aget buf pos;
  es ← write_loop (Z.to_nat val) 0 removed (edges slot);
  aset buf pos (mkRemovedEdge val es).

(** ** The system: the named objects and the processes *)

(** [sems] and [shm] are the objects behind the names [USED_SEM], [FREE_SEM],
    [MUTEX_SEM] and [SHM_NAME]; [None] while the name does not exist.  The
    last three fields are history counters, written by no process: the
    writes that passed [sem_wait(free_sem)], the reads that passed
    [sem_post(free_sem)] in [readBuff], and the successful posts of the
    supervisor's final loop. *)
Record system := mkSys {
  sems : option semaphores;
  shm : option myshm;
  sup : supervisor;
  gens : list generator;
  writes_issued : Z;
  reads_completed : Z;
  shutdown_posts : Z
}.

Definition sys_sems (ss : semaphores) (σ : system) : system :=
  mkSys (Some ss) (shm σ) (sup σ) (gens σ) (writes_issued σ) (reads_completed σ) (shutdown_posts σ).
Definition sys_shm (m : myshm) (σ : system) : system :=
  mkSys (sems σ) (Some m) (sup σ) (gens σ) (writes_issued σ) (reads_completed σ) (shutdown_posts σ).
Definition sys_sup (s : supervisor) (σ : system) : system :=
  mkSys (sems σ) (shm σ) s (gens σ) (writes_issued σ) (reads_completed σ) (shutdown_posts σ).
Definition sys_gen (i : nat) (g : generator) (σ : system) : system :=
  mkSys (sems σ) (shm σ) (sup σ) (<[i := g]> (gens σ))
        (writes_issued σ) (reads_completed σ) (shutdown_posts σ).
Definition count_write (σ : system) : system :=
  mkSys (sems σ) (shm σ) (sup σ) (gens σ) (writes_issued σ + 1) (reads_completed σ) (shutdown_posts σ).
Definition count_read (σ : system) : system :=
  mkSys (sems σ) (shm σ) (sup σ) (gens σ) (writes_issued σ) (reads_completed σ + 1) (shutdown_posts σ).
Definition count_shutdown_post (o : outcome) (σ : system) : system :=
  match o with
  | Failure => σ
  | Success =>
      mkSys (sems σ) (shm σ) (sup σ) (gens σ) (writes_issued σ) (reads_completed σ)
            (shutdown_posts σ + 1)
  end.

Definition shm_state (v : Z) (m : myshm) : myshm :=
  mkShm v (generator_count m) (removed_edges m).
Definition shm_generator_count (v : Z) (m : myshm) : myshm :=
  mkShm (state m) v (removed_edges m).
Definition shm_removed_edges (buf : list removedEdge) (m : myshm) : myshm :=
  mkShm (state m) (generator_count m) buf.

(** A new shared-memory object, extended by [ftruncate]: all bytes zero. *)
Definition zero_shm : myshm :=
  mkShm 0 0
    (replicate (Z.to_nat MAX_DATA)
       (mkRemovedEdge 0 (replicate (Z.to_nat MAX_SOLUTION_EDGES) (mkEdge 0 0)))).

(** The edges printed after "Solution with [k] edges:". *)
Definition printed_edges (k : Z) (slot : removedEdge) : option (list (Z * Z)) :=
  mapM (fun j => ed ← aget (edges slot) j; Some (source ed, destination ed)) (seqZ 0 k).

(** One step of the supervisor; [o] is what the system call of the step, if
    there is one, returns. *)
Definition sup_step (o : outcome) (σ : system) : option system :=
  let s := sup σ in
  match s_pc s with
  | S_initializeSemaphores =>
      (* sem_open(..., O_CREAT | O_EXCL, 0600, v) for 0, MAX_DATA, 1 *)
      match sems σ, o with
      | None, Success =>
          Some (sys_sup (sup_at S_createSHM s) (sys_sems (mkSems 0 MAX_DATA 1) σ))
      | _, _ => Some (sys_sup (sup_fail "USED_SEM failed creation" s) σ)
      end
  | S_createSHM =>
      (* shm_open(SHM_NAME, O_RDWR | O_CREAT, 0600): an object left under the
         name is opened as it is *)
      match o with
      | Success =>
          Some (sys_sup (sup_at S_zero_count s) (sys_shm (default zero_shm (shm σ)) σ))
      | Failure => Some (sys_sup (sup_fail "SHM_NAME failed creation" s) σ)
      end
  | S_zero_count =>
      m ← shm σ;
      Some (sys_sup (sup_at S_while_quit (sup_best INT_MAX s))
              (sys_shm (shm_generator_count 0 m) σ))
  | S_while_quit =>
      if decide (quit s = 0) then Some (sys_sup (sup_at S_read_wait s) σ)
      else Some (sys_sup (sup_at S_lock s) σ)
  | S_read_wait =>
      ss ← sems σ;
      ss' ← sem_wait USED_SEM o ss;
      Some (sys_sup (sup_at S_read_count s) (sys_sems ss' σ))
  | S_read_count =>
      m ← shm σ;
      slot ← aget (removed_edges m) (rd_pos s);
      Some (sys_sup (sup_at S_read_post (sup_r_count (numOfEdges slot) s)) σ)
  | S_read_post =>
      ss ← sems σ;
      Some (count_read (sys_sup (sup_at S_read_advance s) (sys_sems (sem_post FREE_SEM o ss) σ)))
  | S_read_advance =>
      Some (sys_sup (sup_at S_compare (sup_temp (r_count s) (sup_rd_pos (next_pos (rd_pos s)) s))) σ)
  | S_compare =>
      if decide (temp s = 0) then
        Some (sys_sup (sup_at S_lock (sup_best 0 s)) σ)
      else if decide (temp s < curr_best_solution s) then
        m ← shm σ;
        slot ← aget (removed_edges m) (rd_pos s);
        es ← printed_edges (temp s) slot;
        Some (sys_sup (sup_at S_while_quit (sup_best (temp s) (sup_print (Solution (temp s) es) s))) σ)
      else Some (sys_sup (sup_at S_while_quit s) σ)
  | S_lock =>
      ss ← sems σ;
      ss' ← sem_wait MUTEX_SEM o ss;
      Some (sys_sup (sup_at S_set_state s) (sys_sems ss' σ))
  | S_set_state =>
      m ← shm σ;
      Some (sys_sup (sup_at S_unlock s) (sys_shm (shm_state 1 m) σ))
  | S_unlock =>
      ss ← sems σ;
      Some (sys_sup (sup_at S_fan_test (sup_fan_i 0 s)) (sys_sems (sem_post MUTEX_SEM o ss) σ))
  | S_fan_test =>
      m ← shm σ;
      if decide (fan_i s < generator_count m) then Some (sys_sup (sup_at S_fan_post s) σ)
      else Some (sys_sup (sup_at S_summary s) σ)
  | S_fan_post =>
      ss ← sems σ;
      Some (count_shutdown_post o
              (sys_sup (sup_at S_fan_test (sup_fan_i (wrap_int (fan_i s + 1)) s))
                 (sys_sems (sem_post FREE_SEM o ss) σ)))
  | S_summary =>
      let s1 := sup_print (BestFound (curr_best_solution s)) s in
      let s2 := if decide (curr_best_solution s = 0) then sup_print ThreeColorable s1 else s1 in
      Some (sys_sup (sup_at S_teardown s2) σ)
  | S_teardown | S_exit_failure => None
  end.

(** [handle_signal], run on SIGINT or SIGTERM once the handler is installed
    and while the supervisor runs: [quit = 1]. *)
Definition handle_signal (σ : system) : option system :=
  match s_pc (sup σ) with
  | S_initializeSemaphores | S_teardown | S_exit_failure => None
  | _ => Some (sys_sup (sup_quit 1 (sup σ)) σ)
  end.

(** One step of the generator at index [i]. *)
Definition gen_step (i : nat) (o : outcome) (σ : system) : option system :=
  g ← gens σ !! i;
  match g_pc g with
  | G_start =>
      g1 ← propose (gen_locals g);
      match shm σ, sems σ, o with
      | Some _, Some _, Success => Some (sys_gen i (gen_at G_reg_post g1) σ)
      | Some _, None, Success => Some (sys_gen i (gen_fail "USED_SEM failed creation" g1) σ)
      | _, _, _ => Some (sys_gen i (gen_fail "Couldn't open shmf" g1) σ)
      end
  | G_reg_post =>
      ss ← sems σ;
      Some (sys_gen i (gen_at G_reg_incr g) (sys_sems (sem_post MUTEX_SEM o ss) σ))
  | G_reg_incr =>
      m ← shm σ;
      Some (sys_gen i (gen_at G_reg_wait g)
              (sys_shm (shm_generator_count (wrap_int (generator_count m + 1)) m) σ))
  | G_reg_wait =>
      ss ← sems σ;
      ss' ← sem_wait MUTEX_SEM o ss;
      Some (sys_gen i (gen_at G_while_state g) (sys_sems ss' σ))
  | G_while_state =>
      m ← shm σ;
      if decide (state m ≠ 1) then
        if decide (removed_edges_count g <= MAX_SOLUTION_EDGES)
        then Some (sys_gen i (gen_at G_pub_post g) σ)
        else Some (sys_gen i (gen_at G_next_candidate g) σ)
      else Some (sys_gen i (gen_at G_teardown g) σ)
  | G_pub_post =>
      ss ← sems σ;
      Some (sys_gen i (gen_at G_write_wait g) (sys_sems (sem_post MUTEX_SEM o ss) σ))
  | G_write_wait =>
      ss ← sems σ;
      ss' ← sem_wait FREE_SEM o ss;
      Some (count_write (sys_gen i (gen_at G_write_slot g) (sys_sems ss' σ)))
  | G_write_slot =>
      m ← shm σ;
      buf ← write_slot (removed_edges_count g) (g_removed_edges g) (wr_pos g) (removed_edges m);
      Some (sys_gen i (gen_at G_write_post g) (sys_shm (shm_removed_edges buf m) σ))
  | G_write_post =>
      ss ← sems σ;
      Some (sys_gen i (gen_at G_write_advance g) (sys_sems (sem_post USED_SEM o ss) σ))
  | G_write_advance =>
      Some (sys_gen i (gen_at G_pub_wait (gen_wr_pos (next_pos (wr_pos g)) g)) σ)
  | G_pub_wait =>
      ss ← sems σ;
      ss' ← sem_wait MUTEX_SEM o ss;
      Some (sys_gen i (gen_at G_next_candidate g) (sys_sems ss' σ))
  | G_next_candidate =>
      g1 ← propose g;
      Some (sys_gen i (gen_at G_while_state g1) σ)
  | G_teardown | G_exit_failure => None
  end.

Inductive event :=
| ESignal                          (* SIGINT or SIGTERM reaches the supervisor *)
| ESup (o : outcome)               (* the supervisor takes its next step *)
| EGen (i : nat) (o : outcome).    (* generator i takes its next step *)

Definition sys_step (ev : event) (σ : system) : option system :=
  match ev with
  | ESignal => handle_signal σ
  | ESup o => sup_step o σ
  | EGen i o => gen_step i o σ
  end.

(** A schedule, first event first. *)
Fixpoint run (tr : list event) (σ : system) : option system :=
  match tr with
  | [] => Some σ
  | ev :: rest => σ' ← sys_step ev σ; run rest σ'
  end.

(** Start of a session: no semaphore exists (with [O_EXCL] the supervisor
    stops at once otherwise), [leftover] is the shared-memory object found
    under [SHM_NAME], if any, and every generator is given its arguments
    and the sequence of its [rand()]. *)
Definition init_system (leftover : option myshm) (gs : list (list (Z * Z) * (nat -> Z))) : system :=
  mkSys None leftover init_supervisor (map (fun a => init_generator (fst a) (snd a)) gs) 0 0 0.

Definition succeeds (ev : event) : bool :=
  match ev with
  | ESignal => true
  | ESup Success | EGen _ Success => true
  | ESup Failure | EGen _ Failure => false
  end.

(** ** Notions the properties are stated with *)

(** Both endpoints of [ed] carry the same colour. *)
Definition monochrome (color_indices : list Z) (ed : edge) : Prop :=
  aget color_indices (source ed) = aget color_indices (destination ed).

Global Instance monochrome_dec cs ed : Decision (monochrome cs ed).
Proof. unfold monochrome. apply _. Defined.

Definition swapped (ed : edge) : edge := mkEdge (destination ed) (source ed).

(** Both endpoints of [ed] are indices of [color_indices]. *)
Definition in_colors (color_indices : list Z) (ed : edge) : Prop :=
  0 <= source ed < Z.of_nat (length color_indices) /\
  0 <= destination ed < Z.of_nat (length color_indices).

(** Generators between [sem_wait(free_sem)] and [sem_post(used_sem)]. *)
Definition in_write (pc : gen_pc) : Z :=
  match pc with
  | G_write_slot | G_write_post => 1
  | _ => 0
  end.







(** The generator has executed [myshm->generator_count += 1]. *)
Definition registered (pc : gen_pc) : bool :=
  match pc with
  | G_start | G_reg_post | G_reg_incr | G_exit_failure => false
  | _ => true
  end.


(** Sessions and schedules used in the examples: every generator is started
    as [./generator 0-1] and its [rand()] always returns 0, so that both
    vertices get colour 1 and every candidate is the one edge, swapped. *)
Definition always_zero : nat -> Z := fun _ => 0.
Definition one_generator : system := init_system None [([(0, 1)], always_zero)].
Definition sup_ok : event := ESup Success.
Definition gen_ok (i : nat) : event := EGen i Success.

(** The state a schedule leads to ([σ] itself if the schedule cannot run). *)
Definition after (tr : list event) (σ : system) : system := default σ (run tr σ).

(** One generator has registered, the supervisor has been signalled and
    stands before [sem_wait(mutex_sem)]. *)
Definition at_shutdown : system :=
  after (repeat sup_ok 3 ++ repeat (gen_ok 0) 4 ++ [ESignal; sup_ok]) one_generator.


(** ** Notions for the further properties *)

(** The colour [randomizeColors] stores at the [n]-th call of [rand()]. *)
Definition random_color (rand : nat -> Z) (n : nat) : Z :=
  wrap_int (1 + Z.rem (rand n) 3).

(** An edge as the supervisor prints it. *)
Definition edge_pair (ed : edge) : Z * Z := (source ed, destination ed).

(** Both numbers of an argument are vertices below [nv]. *)
Definition arg_below (nv : Z) (a : Z * Z) : Prop :=
  0 <= fst a < nv /\ 0 <= snd a < nv.

(** A cell of the buffer as [writeBuff] leaves it: at most
    MAX_SOLUTION_EDGES edges announced, in an array of MAX_SOLUTION_EDGES. *)
Definition cell_ok (c : removedEdge) : Prop :=
  numOfEdges c <= MAX_SOLUTION_EDGES /\ length (edges c) = Z.to_nat MAX_SOLUTION_EDGES.

(** The segment has the layout of [struct myshm]. *)
Definition segment_ok (m : myshm) : Prop :=
  length (removed_edges m) = Z.to_nat MAX_DATA /\ Forall cell_ok (removed_edges m).

(** The generator has passed [removed_edges_count <= MAX_SOLUTION_EDGES] and
    has not yet stored the candidate. *)
Definition publishing (pc : gen_pc) : bool :=
  match pc with
  | G_pub_post | G_write_wait | G_write_slot => true
  | _ => false
  end.

(** The generator has mapped the segment. *)
Definition attached (pc : gen_pc) : bool :=
  match pc with
  | G_start | G_exit_failure => false
  | _ => true
  end.

(** The supervisor has mapped the segment. *)
Definition sup_mapped (pc : sup_pc) : bool :=
  match pc with
  | S_initializeSemaphores | S_createSHM | S_exit_failure => false
  | _ => true
  end.

Definition gen_safe (mapped : Prop) (g : generator) : Prop :=
  0 <= wr_pos g < sizeof_ptr /\
  removed_edges_count g <= Z.of_nat (length (g_removed_edges g)) /\
  (publishing (g_pc g) = true -> removed_edges_count g <= MAX_SOLUTION_EDGES) /\
  (attached (g_pc g) = true -> mapped).

(** What keeps every access to the buffer inside it. *)
Definition buffer_safe (σ : system) : Prop :=
  (forall m, shm σ = Some m -> segment_ok m) /\
  0 <= rd_pos (sup σ) < sizeof_ptr /\
  r_count (sup σ) <= MAX_SOLUTION_EDGES /\
  temp (sup σ) <= MAX_SOLUTION_EDGES /\
  (sup_mapped (s_pc (sup σ)) = true -> is_Some (shm σ)) /\
  Forall (gen_safe (is_Some (shm σ))) (gens σ).



(** The generator stands before the stores of [writeBuff]. *)
Definition about_to_write : system :=
  after (repeat sup_ok 3 ++ repeat (gen_ok 0) 7) one_generator.

(** Every "Solution with k edges" line has a smaller [k] than the lines
    before it. *)
Definition improving (out : list output) : Prop :=
  forall i j ki kj esi esj,
    (i < j)%nat ->
    out !! i = Some (Solution ki esi) -> out !! j = Some (Solution kj esj) -> kj < ki.

(** No "Solution" line announces fewer than [b] edges. *)
Definition bounded_below (b : Z) (out : list output) : Prop :=
  forall i k es, out !! i = Some (Solution k es) -> b <= k.

(** No "Solution" line at all. *)
Definition no_solution (out : list output) : Prop :=
  forall i k es, out !! i <> Some (Solution k es).

(** The supervisor is in its read loop. *)
Definition in_read_loop (pc : sup_pc) : bool :=
  match pc with
  | S_while_quit | S_read_wait | S_read_count | S_read_post | S_read_advance | S_compare => true
  | _ => false
  end.

(** The supervisor has left its read loop. *)
Definition after_read_loop (pc : sup_pc) : bool :=
  match pc with
  | S_lock | S_set_state | S_unlock | S_fan_test | S_fan_post | S_summary | S_teardown => true
  | _ => false
  end.

Definition solutions_inv (σ : system) : Prop :=
  improving (s_out (sup σ)) /\
  (in_read_loop (s_pc (sup σ)) = true ->
   bounded_below (curr_best_solution (sup σ)) (s_out (sup σ))) /\
  (in_read_loop (s_pc (sup σ)) = false -> after_read_loop (s_pc (sup σ)) = false ->
   no_solution (s_out (sup σ))).

(** A generator started as [./generator 0-1 1-2] whose first three calls of
    [rand()] give one colour to all vertices (two edges to remove) and whose
    next three give vertex 2 another colour (one edge to remove); the
    supervisor has read both candidates and printed two lines. *)
Definition two_then_one : nat -> Z := fun n => if decide (n = 5)%nat then 1 else 0.
Definition two_lines_printed : system :=
  after (repeat sup_ok 3 ++ repeat (gen_ok 0) 17 ++ repeat sup_ok 12)
    (init_system None [([(0, 1); (1, 2)], two_then_one)]).

(** Sum of [f] over the program points of the generators. *)
Definition tally (f : gen_pc -> Z) (gs : list generator) : Z :=
  foldr (fun g n => f (g_pc g) + n) 0 gs.

(** The generator has executed a [sem_post(mutex_sem)] that its
    [sem_wait(mutex_sem)] has not yet followed. *)
Definition posted (pc : gen_pc) : Z :=
  match pc with
  | G_reg_incr | G_reg_wait | G_write_wait | G_write_slot | G_write_post
  | G_write_advance | G_pub_wait => 1
  | _ => 0
  end.

(** The supervisor is between its [sem_wait(mutex_sem)] and its
    [sem_post(mutex_sem)]. *)
Definition holding (pc : sup_pc) : Z :=
  match pc with
  | S_set_state | S_unlock => 1
  | _ => 0
  end.

Definition mutex_inv (σ : system) : Prop :=
  match sems σ with
  | Some ss => mutex_sem ss = 1 + tally posted (gens σ) - holding (s_pc (sup σ))
  | None => s_pc (sup σ) = S_initializeSemaphores /\ tally posted (gens σ) = 0
  end.

(** The supervisor is inside [readBuff] and has not yet posted [free_sem]. *)
Definition pending_read (pc : sup_pc) : Z :=
  match pc with
  | S_read_wait | S_read_count | S_read_post => 1
  | _ => 0
  end.

(** The generator has passed the test of [state] and of the count and has
    not yet passed [sem_wait(free_sem)]. *)
Definition may_write (pc : gen_pc) : Z :=
  match pc with
  | G_pub_post | G_write_wait => 1
  | _ => 0
  end.

Definition stopping_inv (bound : Z) (σ : system) : Prop :=
  quit (sup σ) <> 0 /\
  reads_completed σ + pending_read (s_pc (sup σ)) <= bound.

Definition flagged_inv (bound : Z) (σ : system) : Prop :=
  (exists m, shm σ = Some m /\ state m = 1) /\
  writes_issued σ + tally may_write (gens σ) <= bound.

(** What the final lines of the supervisor rest on. *)
Definition verdict_inv (σ : system) : Prop :=
  0 <= reads_completed σ /\
  (in_read_loop (s_pc (sup σ)) = true -> curr_best_solution (sup σ) <> 0) /\
  (s_pc (sup σ) = S_read_advance \/ s_pc (sup σ) = S_compare -> 1 <= reads_completed σ) /\
  (after_read_loop (s_pc (sup σ)) = true -> curr_best_solution (sup σ) = 0 ->
   temp (sup σ) = 0 /\ 1 <= reads_completed σ) /\
  (ThreeColorable ∈ s_out (sup σ) ->
   s_pc (sup σ) = S_teardown /\ curr_best_solution (sup σ) = 0 /\
   BestFound 0 ∈ s_out (sup σ)).

(** The supervisor has been interrupted in [sem_wait(used_sem)] on an empty
    buffer and has printed its final lines. *)
Definition interrupted_on_empty_buffer : system :=
  after (repeat sup_ok 4 ++ [ESignal; ESup Failure] ++ repeat sup_ok 9) one_generator.

(** The supervisor has stored 1 in [state]. *)
Definition flag_raised : system := after (repeat sup_ok 2) at_shutdown.






(** ** Teardown ([sharedmem.c])

    The calls that release the resources; [fails] tells which of them
    return -1.  Every function is a sequence of
    [if (call == -1) printErrAndExit(msg);]: it returns the calls issued, in
    order, and the diagnostic if one of them failed, after which the process
    has exited. *)
Inductive syscall :=
| Sem_close (n : sem_name)
| Munmap
| Sem_unlink (n : sem_name)
| Shm_unlink.

Fixpoint attempt (steps : list (syscall * string)) (fails : syscall -> bool)
    : list syscall * option string :=
  match steps with
  | [] => ([], None)
  | (call, msg) :: rest =>
      if fails call then ([call], Some msg)
      else let '(calls, diag) := attempt rest fails in (call :: calls, diag)
  end.

Definition closeSemaphores_steps : list (syscall * string) :=
  [(Sem_close USED_SEM, "Closing used_sum failed");
   (Sem_close FREE_SEM, "Closing free_sem failed");
   (Sem_close MUTEX_SEM, "Closing mutex_sem failed")].

Definition unmapSHM_steps : list (syscall * string) :=
  [(Munmap, "Unmapping SHM failed")].

Definition unlinkRessources_steps : list (syscall * string) :=
  [(Sem_unlink USED_SEM, "Unlinking USED_SEM failed");
   (Sem_unlink FREE_SEM, "Unlinking FREE_SEM failed");
   (Sem_unlink MUTEX_SEM, "Unlinking FREE_SEM failed");
   (Shm_unlink, "Unlinking SHM object failed")].

Definition closeSemaphores := attempt closeSemaphores_steps.
Definition unmapSHM := attempt unmapSHM_steps.
Definition unlinkRessources := attempt unlinkRessources_steps.




Definition generator_calls : list syscall :=
  fst <$> unmapSHM_steps ++ closeSemaphores_steps.


(** ** Integer and array lemmas *)

Lemma wrap_int_id z : - 2 ^ 31 <= z <= INT_MAX -> wrap_int z = z.
Proof.
  intros H. unfold wrap_int, INT_MAX in *.
  rewrite Z.mod_small; lia.
Qed.

Lemma aget_of_nat {A} (a : list A) (n : nat) : aget a (Z.of_nat n) = a !! n.
Proof. unfold aget. rewrite decide_True by lia. by rewrite Nat2Z.id. Qed.

Lemma aset_of_nat {A} (a : list A) (n : nat) x :
  (n < length a)%nat -> aset a (Z.of_nat n) x = Some (<[n := x]> a).
Proof. intros H. unfold aset. rewrite decide_True by lia. by rewrite Nat2Z.id. Qed.

Lemma aget_in_range {A} (a : list A) (i : Z) :
  0 <= i < Z.of_nat (length a) -> is_Some (aget a i).
Proof.
  intros H. unfold aget. rewrite decide_True by lia.
  apply lookup_lt_is_Some. lia.
Qed.

Lemma next_pos_on_small psz pos :
  0 < psz <= 8 -> 0 <= pos < psz -> next_pos_on psz pos = (pos + 1) `mod` psz.
Proof.
  intros Hp Hpos. unfold next_pos_on, to_size_t.
  assert (2 ^ 8 <= 2 ^ (8 * psz)) by (apply Z.pow_le_mono_r; lia).
  rewrite (wrap_int_id (pos + 1)) by (unfold INT_MAX; lia).
  rewrite (Z.mod_small (pos + 1) (2 ^ (8 * psz))) by lia.
  assert (0 <= (pos + 1) `mod` psz < psz) by (apply Z.mod_pos_bound; lia).
  apply wrap_int_id. unfold INT_MAX. lia.
Qed.

(** ** Case analysis on a step *)

Ltac step_cases :=
  repeat match goal with
  | H : Some _ = Some _ |- _ => injection H as <-
  | H : None = Some _ |- _ => discriminate H
  | H : mbind _ ?o = Some _ |- _ => destruct o eqn:?; simpl in H
  | H : (match ?o with Some _ => _ | None => _ end) = Some _ |- _ => destruct o eqn:?; simpl in H
  | H : (if decide ?P then _ else _) = Some _ |- _ => destruct (decide P); simpl in H
  end.

Ltac known_fields :=
  repeat match goal with
  | H : sems ?s = _ |- context [sems ?s] => rewrite H
  | H : shm ?s = _ |- context [shm ?s] => rewrite H
  end.

(** ** [solveColorProblem] *)

(** The loop from index [length pre] on, with [c] edges recorded so far. *)
Lemma solve_loop_spec cs rest : forall pre removed (c : nat),
  Forall (in_colors cs) rest ->
  (c <= length pre)%nat ->
  (length (pre ++ rest) <= length removed)%nat ->
  Z.of_nat (length (pre ++ rest)) <= INT_MAX ->
  solve_loop (length rest) cs (pre ++ rest) (Z.of_nat (length pre)) removed (Z.of_nat c)
  = Some (take c removed ++ (swapped <$> filter (monochrome cs) rest)
            ++ drop (c + length (filter (monochrome cs) rest)) removed,
          Z.of_nat (c + length (filter (monochrome cs) rest))).
Proof.
  induction rest as [|ed rest IH]; intros pre removed c Hin Hc Hlen Hmax.
  - simpl. rewrite Nat.add_0_r, take_drop. done.
  - apply Forall_cons in Hin as [[Hs Hd] Hin].
    destruct (aget_in_range cs _ Hs) as [c1 E1].
    destruct (aget_in_range cs _ Hd) as [c2 E2].
    rewrite length_app in Hlen, Hmax. simpl in Hlen, Hmax.
    assert (Hed : aget (pre ++ ed :: rest) (Z.of_nat (length pre)) = Some ed).
    { rewrite aget_of_nat, lookup_app_r, Nat.sub_diag by lia. done. }
    assert (Hw : wrap_int (Z.of_nat (length pre) + 1) = Z.of_nat (length (pre ++ [ed]))).
    { rewrite length_app. simpl. rewrite wrap_int_id; unfold INT_MAX in *; lia. }
    assert (Hsplit : pre ++ ed :: rest = (pre ++ [ed]) ++ rest) by (by rewrite <- app_assoc).
    simpl solve_loop. rewrite Hed. simpl. rewrite E1, E2. simpl. rewrite Hw, Hsplit.
    rewrite filter_cons.
    destruct (decide (c1 = c2)) as [Heq|Hne].
    + rewrite decide_True by (unfold monochrome; congruence).
      destruct (lookup_lt_is_Some_2 removed c ltac:(lia)) as [old Eold].
      rewrite (aget_of_nat removed), Eold. simpl.
      rewrite aset_of_nat by lia. simpl.
      rewrite aget_of_nat, list_lookup_insert_eq by lia. simpl.
      rewrite aset_of_nat by (rewrite length_insert; lia). simpl.
      rewrite list_insert_insert_eq.
      replace (wrap_int (Z.of_nat c + 1)) with (Z.of_nat (S c))
        by (rewrite wrap_int_id; unfold INT_MAX in *; lia).
      rewrite IH; [|done|rewrite length_app; simpl; lia
                   |rewrite length_insert, !length_app; simpl; lia
                   |rewrite !length_app; simpl; lia].
      rewrite (take_S_r _ _ (swapped ed)) by (by rewrite list_lookup_insert_eq by lia).
      rewrite take_insert_ge by lia.
      rewrite drop_insert_lt by lia.
      rewrite <- app_assoc. simpl.
      replace (c + S (length (filter (monochrome cs) rest)))%nat
        with (S (c + length (filter (monochrome cs) rest))) by lia.
      done.
    + rewrite decide_False by (unfold monochrome; congruence).
      rewrite IH; [done|done|rewrite length_app; simpl; lia
                   |rewrite !length_app; simpl; lia
                   |rewrite !length_app; simpl; lia].
Qed.

(** C10. For colours [cs] and input edges [edges_in] whose endpoints are
    indices of [cs], with room for them in [removed], [solveColorProblem]
    stores in [removed_edges_count] the number of input edges whose two
    endpoints have the same colour, and the first that many cells of
    [removed_edges] are those edges in input order, each with source and
    destination exchanged; the cells behind them are left as they were. *)
Theorem solveColorProblem_records_monochrome_edges
    (cs : list Z) (removed edges_in : list edge) :
  Forall (in_colors cs) edges_in ->
  (length edges_in <= length removed)%nat ->
  Z.of_nat (length edges_in) <= INT_MAX ->
  exists removed',
    solveColorProblem cs removed edges_in (Z.of_nat (length edges_in))
      = Some (removed', Z.of_nat (length (filter (monochrome cs) edges_in))) /\
    take (length (filter (monochrome cs) edges_in)) removed'
      = swapped <$> filter (monochrome cs) edges_in /\
    drop (length (filter (monochrome cs) edges_in)) removed'
      = drop (length (filter (monochrome cs) edges_in)) removed.
Proof.
  intros Hin Hlen Hmax.
  pose proof (solve_loop_spec cs edges_in [] removed 0%nat Hin (Nat.le_refl _) Hlen Hmax) as H.
  simpl in H.
  eexists. split.
  - unfold solveColorProblem. rewrite Nat2Z.id. exact H.
  - assert (Hl : length (swapped <$> filter (monochrome cs) edges_in)
                 = length (filter (monochrome cs) edges_in)) by apply length_fmap.
    split.
    + rewrite <- Hl at 1. by rewrite take_app_length.
    + rewrite <- Hl at 1. by rewrite drop_app_length.
Qed.

Lemma solveColorProblem_records_monochrome_edges_witness :
  exists removed',
    solveColorProblem [1; 1; 2] (replicate 3 (mkEdge 7 7))
        [mkEdge 0 1; mkEdge 1 2; mkEdge 1 0] 3
      = Some (removed', 2) /\
    take 2 removed' = [mkEdge 1 0; mkEdge 0 1] /\
    drop 2 removed' = [mkEdge 7 7].
Proof.
  apply (solveColorProblem_records_monochrome_edges [1; 1; 2] (replicate 3 (mkEdge 7 7))
           [mkEdge 0 1; mkEdge 1 2; mkEdge 1 0]).
  - repeat constructor; simpl; lia.
  - simpl. lia.
  - vm_compute. discriminate.
Defined.

(** ** The vertex count of the generator *)

(** The first loop keeps the larger endpoint of the argument it is at, not
    of all arguments seen: after the loop [max] belongs to the last one. *)
Lemma scan_max_last args edge1 edge2 m :
  scan_max (args ++ [(edge1, edge2)]) m = Z.max edge1 edge2.
Proof.
  revert m. induction args as [|[a b] args IH]; intros m; simpl.
  - case_decide; lia.
  - apply IH.
Qed.

(** C9, on [./generator 5-6 0-1]: both arguments parse, [numOfVertices] is
    2, the edge list holds the vertices 5 and 6, and the first candidate
    cannot be computed: [solveColorProblem] reads [color_indices[5]] in an
    array of two cells, whatever [rand()] returns. *)
Theorem vertex_count_follows_last_argument :
  numOfVertices_of [(5, 6); (0, 1)] = 2 /\
  edges_of [(5, 6); (0, 1)] = [mkEdge 5 6; mkEdge 0 1] /\
  forall rand : nat -> Z, propose (gen_locals (init_generator [(5, 6); (0, 1)] rand)) = None.
Proof.
  split; [reflexivity|]. split; [reflexivity|].
  intros rand. reflexivity.
Qed.

(** ** The cursors *)

(** C1, at cursor 7: [next_pos], the update of [wr_pos] in [writeBuff] and
    of [rd_pos] in [readBuff], gives 0 where (7 + 1) mod MAX_DATA is 8 (and
    with 4-byte pointers it gives 0 at cursor 3).  In a session, [wr_pos]
    is back at 0 after the generator's eighth write and [rd_pos] after the
    supervisor's eighth read. *)
Theorem cursor_wraps_at_pointer_size :
  next_pos 7 = 0 /\ (7 + 1) `mod` MAX_DATA = 8 /\ next_pos_on 4 3 = 0 /\
  exists σ σ',
    run (repeat sup_ok 3 ++ repeat (gen_ok 0) 68) one_generator = Some σ /\
    writes_issued σ = 8 /\ wr_pos <$> gens σ !! 0%nat = Some 0 /\
    run (repeat sup_ok 48) σ = Some σ' /\
    reads_completed σ' = 8 /\ rd_pos (sup σ') = 0.
Proof.
  split; [reflexivity|]. split; [reflexivity|]. split; [reflexivity|].
  eexists. eexists.
  split; [vm_compute; reflexivity|].
  split; [reflexivity|]. split; [reflexivity|].
  split; [vm_compute; reflexivity|].
  split; reflexivity.
Qed.

(** ** What the supervisor prints *)

(** C2, in a session with one generator: the generator writes the candidate
    with the one edge 1 - 0 into cell 0; the supervisor reads its count at
    [rd_pos] = 0, posts [free_sem], advances [rd_pos] to 1 and then prints
    the line for 1 edge with the first edge of cell 1, which is 0 - 0. *)
Theorem printed_edges_come_from_the_next_cell :
  exists σ σ' cell,
    run (repeat sup_ok 3 ++ repeat (gen_ok 0) 9) one_generator = Some σ /\
    (shm σ ≫= fun m => removed_edges m !! 0%nat) = Some cell /\
    numOfEdges cell = 1 /\ edges cell !! 0%nat = Some (mkEdge 1 0) /\
    rd_pos (sup σ) = 0 /\
    run (repeat sup_ok 6) σ = Some σ' /\
    rd_pos (sup σ') = 1 /\
    s_out (sup σ') = [Solution 1 [(0, 0)]].
Proof.
  eexists. eexists. eexists.
  split; [vm_compute; reflexivity|].
  split; [vm_compute; reflexivity|].
  split; [reflexivity|]. split; [reflexivity|]. split; [reflexivity|].
  split; [vm_compute; reflexivity|].
  split; reflexivity.
Qed.

(** ** The mutex in the generator *)

(** C3, in a session with one generator.  First run: the supervisor has
    passed [sem_wait(mutex_sem)] and stands before [myshm->state = 1]; the
    generator posts [mutex_sem] and adds 1 to [generator_count], the
    supervisor still between its wait and its post.  Second run: the
    generator attaches and registers after the supervisor has created the
    segment and before it executes [myshm->generator_count = 0]; the
    count goes from 1 back to 0. *)
Theorem registration_is_outside_the_mutex :
  (exists σ σ',
     run (repeat sup_ok 3 ++ [ESignal; sup_ok; sup_ok; gen_ok 0; gen_ok 0]) one_generator
       = Some σ /\
     s_pc (sup σ) = S_set_state /\
     g_pc <$> gens σ !! 0%nat = Some G_reg_incr /\
     generator_count <$> shm σ = Some 0 /\
     sys_step (gen_ok 0) σ = Some σ' /\
     s_pc (sup σ') = S_set_state /\
     generator_count <$> shm σ' = Some 1) /\
  (exists σ σ',
     run [sup_ok; sup_ok; gen_ok 0; gen_ok 0; gen_ok 0] one_generator = Some σ /\
     g_pc <$> gens σ !! 0%nat = Some G_reg_wait /\
     generator_count <$> shm σ = Some 1 /\
     sys_step sup_ok σ = Some σ' /\
     generator_count <$> shm σ' = Some 0).
Proof.
  split.
  - eexists. eexists.
    split; [vm_compute; reflexivity|].
    do 3 (split; [reflexivity|]).
    split; [vm_compute; reflexivity|].
    split; reflexivity.
  - eexists. eexists.
    split; [vm_compute; reflexivity|].
    do 2 (split; [reflexivity|]).
    split; [vm_compute; reflexivity|].
    reflexivity.
Qed.

(** C4, in a session with one generator: the supervisor has taken
    [mutex_sem] (its value is 0) and stands before [myshm->state = 1] when
    the generator evaluates [myshm->state != 1], finds it true and goes on
    to publish; the supervisor then sets [state] to 1 and releases the
    mutex, and the generator writes its candidate into cell 0. *)
Theorem termination_check_is_outside_the_mutex :
  exists σ σ1 σ2 cell,
    run (repeat sup_ok 3 ++ repeat (gen_ok 0) 4 ++ [ESignal; sup_ok; sup_ok]) one_generator
      = Some σ /\
    s_pc (sup σ) = S_set_state /\
    mutex_sem <$> sems σ = Some 0 /\
    g_pc <$> gens σ !! 0%nat = Some G_while_state /\
    sys_step (gen_ok 0) σ = Some σ1 /\
    s_pc (sup σ1) = S_set_state /\
    g_pc <$> gens σ1 !! 0%nat = Some G_pub_post /\
    run ([sup_ok; sup_ok] ++ repeat (gen_ok 0) 4) σ1 = Some σ2 /\
    state <$> shm σ2 = Some 1 /\
    writes_issued σ2 = 1 /\
    (shm σ2 ≫= fun m => removed_edges m !! 0%nat) = Some cell /\
    numOfEdges cell = 1.
Proof.
  eexists. eexists. eexists. eexists.
  split; [vm_compute; reflexivity|].
  do 3 (split; [reflexivity|]).
  split; [vm_compute; reflexivity|].
  do 2 (split; [reflexivity|]).
  split; [vm_compute; reflexivity|].
  do 2 (split; [reflexivity|]).
  split; [vm_compute; reflexivity|].
  reflexivity.
Qed.

(** What the code does keep of the registration and of the termination
    check: a registered generator stays registered, so it stands before
    the increment once, and it writes only when registered; a generator
    that reads 1 in [state] leaves the loop and touches neither the
    segment nor the semaphores. *)
Lemma registered_stays i o σ σ' g :
  gens σ !! i = Some g -> registered (g_pc g) = true ->
  gen_step i o σ = Some σ' ->
  exists g', gens σ' !! i = Some g' /\ registered (g_pc g') = true.
Proof.
  intros Hg Hr H. unfold gen_step in H. rewrite Hg in H. simpl in H.
  assert (Hlt : (i < length (gens σ))%nat) by (by eapply lookup_lt_Some).
  destruct (g_pc g) eqn:Epc; simpl in Hr; try done; simpl in H;
    unfold sem_wait in H; destruct o; step_cases;
    simpl; eexists; (split; [by apply list_lookup_insert_eq|]); done.
Qed.

Lemma writing_is_registered pc :
  pc = G_write_wait \/ in_write pc = 1 -> registered pc = true.
Proof. intros [->|H]; [done|]. destruct pc; simpl in H; done. Qed.

Lemma termination_seen_ends_loop i o σ g m :
  gens σ !! i = Some g -> g_pc g = G_while_state ->
  shm σ = Some m -> state m = 1 ->
  gen_step i o σ = Some (sys_gen i (gen_at G_teardown g) σ).
Proof.
  intros Hg Hpc Hm Hs. unfold gen_step. rewrite Hg. simpl. rewrite Hpc, Hm. simpl.
  rewrite decide_False by (intros ?; done). done.
Qed.

(** ** Initialisation of the supervisor *)



(** An object left under [SHM_NAME] is opened as it is: only
    [generator_count] is written by the initialisation. *)
Lemma supervisor_opens_leftover_segment (m : myshm) gs :
  exists σ,
    run (repeat sup_ok 3) (init_system (Some m) gs) = Some σ /\
    shm σ = Some (shm_generator_count 0 m).
Proof. eexists. split; reflexivity. Qed.

(** ** The permits of the two counting semaphores *)












(** With the posts of the final loop counted, the bound is
    [permits_bound]; they do let a generator write into a full buffer:
    after 128 unread writes the generator blocks in [sem_wait(free_sem)],
    the supervisor is signalled and posts [free_sem] once, and the
    generator writes a 129th candidate. *)
Lemma write_after_shutdown_post :
  exists σ,
    run (repeat sup_ok 3 ++ repeat (gen_ok 0) (4 + 128 * 8 + 2)
           ++ [ESignal] ++ repeat sup_ok 7 ++ repeat (gen_ok 0) 2) one_generator = Some σ /\
    shutdown_posts σ = 1 /\ reads_completed σ = 0 /\ writes_issued σ = 129.
Proof.
  eexists. split; [vm_compute; reflexivity|].
  repeat split; reflexivity.
Qed.

(** ** Shutdown by the supervisor *)









(** ** Failing semaphore calls *)




(** ** Further integer and array lemmas *)

Lemma wrap_int_le z : - 2 ^ 31 <= z -> wrap_int z <= z.
Proof.
  intros H. unfold wrap_int.
  assert ((z + 2 ^ 31) `mod` 2 ^ 32 <= z + 2 ^ 31) by (apply Z.mod_le; lia).
  lia.
Qed.

Lemma wrap_int_range z : - 2 ^ 31 <= wrap_int z <= INT_MAX.
Proof.
  unfold wrap_int, INT_MAX.
  assert (0 <= (z + 2 ^ 31) `mod` 2 ^ 32 < 2 ^ 32) by (apply Z.mod_pos_bound; lia).
  lia.
Qed.

Lemma aget_out_of_range {A} (a : list A) (i : Z) :
  ~ (0 <= i < Z.of_nat (length a)) -> aget a i = None.
Proof.
  intros Hr. unfold aget. case_decide; [|done].
  apply lookup_ge_None. lia.
Qed.

Lemma aget_Some {A} (a : list A) (i : Z) x :
  aget a i = Some x -> 0 <= i < Z.of_nat (length a) /\ a !! Z.to_nat i = Some x.
Proof.
  unfold aget. case_decide; [|done]. intros Hx. split; [|done].
  apply lookup_lt_Some in Hx. lia.
Qed.

Lemma aset_Some {A} (a : list A) (i : Z) x a' :
  aset a i x = Some a' -> 0 <= i < Z.of_nat (length a) /\ a' = <[Z.to_nat i := x]> a.
Proof. unfold aset. case_decide; [|done]. intros [= <-]. done. Qed.

(** ** [randomizeColors] *)

Lemma randomize_loop_spec rand iters : forall calls (v : nat) cs,
  (v + iters <= length cs)%nat ->
  Z.of_nat (v + iters) <= INT_MAX ->
  exists cs',
    randomize_loop iters rand calls (Z.of_nat v) cs = Some (cs', (calls + iters)%nat) /\
    length cs' = length cs /\
    (forall j, (v <= j < v + iters)%nat ->
               cs' !! j = Some (random_color rand (calls + (j - v)))) /\
    (forall j, (j < v \/ v + iters <= j)%nat -> cs' !! j = cs !! j).
Proof.
  induction iters as [|k IH]; intros calls v cs Hlen Hmax.
  - exists cs. simpl. rewrite Nat.add_0_r. repeat split; try done. intros j Hj. lia.
  - simpl. rewrite aset_of_nat by lia. simpl.
    replace (wrap_int (Z.of_nat v + 1)) with (Z.of_nat (S v))
      by (rewrite wrap_int_id; unfold INT_MAX in *; lia).
    destruct (IH (S calls) (S v) (<[v := random_color rand calls]> cs)) as (cs' & E & L & Hin & Hout).
    { rewrite length_insert. lia. }
    { lia. }
    exists cs'. split; [|split; [|split]].
    + fold (random_color rand calls). rewrite E. do 2 f_equal. lia.
    + by rewrite L, length_insert.
    + intros j Hj. destruct (decide (j = v)) as [->|Hne].
      * rewrite Hout by lia. rewrite list_lookup_insert_eq by lia.
        by rewrite Nat.sub_diag, Nat.add_0_r.
      * rewrite Hin by lia. do 2 f_equal. lia.
    + intros j Hj. rewrite Hout by lia. apply list_lookup_insert_ne. lia.
Qed.

Lemma random_color_range rand n : 0 <= rand n -> 1 <= random_color rand n <= 3.
Proof.
  intros H. unfold random_color.
  assert (0 <= Z.rem (rand n) 3 < 3) by (apply Z.rem_bound_pos; lia).
  rewrite wrap_int_id; unfold INT_MAX; lia.
Qed.

(** X1. When [rand()] returns non-negative values and [color_indices]
    has at least [numOfVertices] cells, [randomizeColors] is defined, calls
    [rand()] exactly [numOfVertices] times, gives every vertex below
    [numOfVertices] the colour 1 + rand() % 3, which lies between 1 and 3,
    and leaves the length of the array and the cells behind unchanged. *)
Theorem randomizeColors_colors_all_vertices
    (rand : nat -> Z) (calls : nat) (numOfVertices_in : Z) (cs : list Z) :
  (forall n, 0 <= rand n) ->
  0 <= numOfVertices_in <= INT_MAX ->
  numOfVertices_in <= Z.of_nat (length cs) ->
  exists cs',
    randomizeColors rand calls numOfVertices_in cs
      = Some (cs', (calls + Z.to_nat numOfVertices_in)%nat) /\
    length cs' = length cs /\
    (forall v, 0 <= v < numOfVertices_in ->
               exists c, aget cs' v = Some c /\ 1 <= c <= 3 /\
                         c = 1 + Z.rem (rand (calls + Z.to_nat v)%nat) 3) /\
    (forall v, numOfVertices_in <= v -> aget cs' v = aget cs v).
Proof.
  intros Hrand Hnv Hlen.
  destruct (randomize_loop_spec rand (Z.to_nat numOfVertices_in) calls 0 cs)
    as (cs' & E & L & Hin & Hout); [lia|lia|].
  exists cs'. split; [exact E|]. split; [exact L|]. split.
  - intros v Hv. exists (random_color rand (calls + Z.to_nat v)).
    split; [|split].
    + unfold aget. rewrite decide_True by lia. rewrite Hin by lia.
      by rewrite Nat.sub_0_r.
    + by apply random_color_range.
    + pose proof (random_color_range rand (calls + Z.to_nat v) (Hrand _)) as R.
      unfold random_color in *.
      assert (0 <= Z.rem (rand (calls + Z.to_nat v)%nat) 3 < 3)
        by (apply Z.rem_bound_pos; [apply Hrand|lia]).
      rewrite wrap_int_id; unfold INT_MAX; lia.
  - intros v Hv. unfold aget. case_decide; [|done]. apply Hout. lia.
Qed.

Lemma randomizeColors_colors_all_vertices_witness :
  exists cs',
    randomizeColors (fun n => Z.of_nat n) 4 3 [0; 0; 0; 9]
      = Some (cs', (4 + Z.to_nat 3)%nat) /\
    length cs' = length [0; 0; 0; 9] /\
    (forall v, 0 <= v < 3 ->
               exists c, aget cs' v = Some c /\ 1 <= c <= 3 /\
                         c = 1 + Z.rem (Z.of_nat (4 + Z.to_nat v)) 3) /\
    (forall v, 3 <= v -> aget cs' v = aget [0; 0; 0; 9] v).
Proof.
  apply (randomizeColors_colors_all_vertices (fun n => Z.of_nat n) 4 3 [0; 0; 0; 9]).
  - intros n. lia.
  - vm_compute. split; discriminate.
  - vm_compute. discriminate.
Defined.

(** ** More on [solveColorProblem] *)

(** An endpoint outside [color_indices] leaves the loop without a value. *)
Lemma solve_loop_out_of_colors cs rest : forall pre removed c,
  ~ Forall (in_colors cs) rest ->
  Z.of_nat (length (pre ++ rest)) <= INT_MAX ->
  solve_loop (length rest) cs (pre ++ rest) (Z.of_nat (length pre)) removed c = None.
Proof.
  induction rest as [|ed rest IH]; intros pre removed c Hbad Hmax.
  - destruct Hbad. constructor.
  - rewrite length_app in Hmax. simpl in Hmax.
    assert (Hed : aget (pre ++ ed :: rest) (Z.of_nat (length pre)) = Some ed).
    { rewrite aget_of_nat, lookup_app_r, Nat.sub_diag by lia. done. }
    assert (Hw : wrap_int (Z.of_nat (length pre) + 1) = Z.of_nat (length (pre ++ [ed]))).
    { rewrite length_app. simpl. rewrite wrap_int_id; unfold INT_MAX in *; lia. }
    assert (Hsplit : pre ++ ed :: rest = (pre ++ [ed]) ++ rest) by (by rewrite <- app_assoc).
    simpl solve_loop. rewrite Hed. simpl. rewrite Hw, Hsplit.
    assert (Hnext : forall removed' c',
               ~ Forall (in_colors cs) rest ->
               solve_loop (length rest) cs ((pre ++ [ed]) ++ rest)
                 (Z.of_nat (length (pre ++ [ed]))) removed' c' = None).
    { intros removed' c' Hrest. apply IH; [done|].
      rewrite !length_app. simpl. lia. }
    destruct (decide (in_colors cs ed)) as [Hin|Hout].
    + assert (Hrest : ~ Forall (in_colors cs) rest) by (intros F; apply Hbad; by constructor).
      destruct (aget cs (source ed)) as [c1|]; simpl; [|done].
      destruct (aget cs (destination ed)) as [c2|]; simpl; [|done].
      case_decide; [|by apply Hnext].
      destruct (aget removed c) as [old|]; simpl; [|done].
      destruct (aset removed c _) as [r1|]; simpl; [|done].
      destruct (aget r1 c) as [old1|]; simpl; [|done].
      destruct (aset r1 c _) as [r2|]; simpl; [|done].
      by apply Hnext.
    + unfold in_colors in Hout.
      destruct (decide (0 <= source ed < Z.of_nat (length cs))) as [Hs|Hs].
      * rewrite (aget_out_of_range cs (destination ed)) by tauto.
        by destruct (aget cs (source ed)).
      * by rewrite (aget_out_of_range cs (source ed)) by done.
Qed.

Lemma solveColorProblem_defined cs removed edges_in :
  (length edges_in <= length removed)%nat ->
  Z.of_nat (length edges_in) <= INT_MAX ->
  is_Some (solveColorProblem cs removed edges_in (Z.of_nat (length edges_in)))
  <-> Forall (in_colors cs) edges_in.
Proof.
  intros Hlen Hmax. unfold solveColorProblem. rewrite Nat2Z.id. split.
  - intros [r Hr]. destruct (decide (Forall (in_colors cs) edges_in)) as [F|F]; [done|].
    pose proof (solve_loop_out_of_colors cs edges_in [] removed 0 F Hmax) as N.
    simpl in N. change (Z.of_nat 0) with 0 in N. congruence.
  - intros F.
    pose proof (solve_loop_spec cs edges_in [] removed 0%nat F (Nat.le_refl _) Hlen Hmax) as S.
    simpl in S. change (Z.of_nat 0) with 0 in S. rewrite S. by eexists.
Qed.

(** X3. With room in [removed_edges] and [numOfEdges] the length of the
    edge array, [solveColorProblem] has a defined result exactly when both
    endpoints of every input edge are indices of [color_indices]; one
    endpoint outside makes it read outside the array. *)
Theorem solveColorProblem_defined_iff_in_colors
    (cs : list Z) (removed edges_in : list edge) :
  (length edges_in <= length removed)%nat ->
  Z.of_nat (length edges_in) <= INT_MAX ->
  is_Some (solveColorProblem cs removed edges_in (Z.of_nat (length edges_in)))
  <-> Forall (in_colors cs) edges_in.
Proof. apply solveColorProblem_defined. Qed.

Lemma solveColorProblem_defined_iff_in_colors_witness :
  is_Some (solveColorProblem [1; 2] [mkEdge 0 0] [mkEdge 0 1] (Z.of_nat (length [mkEdge 0 1])))
  <-> Forall (in_colors [1; 2]) [mkEdge 0 1].
Proof.
  apply (solveColorProblem_defined_iff_in_colors [1; 2] [mkEdge 0 0] [mkEdge 0 1]).
  - simpl. lia.
  - vm_compute. discriminate.
Defined.

(** X2. With all endpoints inside [color_indices] and room in
    [removed_edges], the count [solveColorProblem] stores lies between 0
    and [numOfEdges], and it is 0 exactly when no input edge has two
    endpoints of the same colour: a candidate with 0 edges is a proper
    colouring. *)
Theorem solveColorProblem_zero_iff_proper_coloring
    (cs : list Z) (removed edges_in : list edge) :
  Forall (in_colors cs) edges_in ->
  (length edges_in <= length removed)%nat ->
  Z.of_nat (length edges_in) <= INT_MAX ->
  exists removed' count,
    solveColorProblem cs removed edges_in (Z.of_nat (length edges_in))
      = Some (removed', count) /\
    0 <= count <= Z.of_nat (length edges_in) /\
    (count = 0 <->
     forall ed, ed ∈ edges_in -> aget cs (source ed) <> aget cs (destination ed)).
Proof.
  intros F Hlen Hmax.
  pose proof (solve_loop_spec cs edges_in [] removed 0%nat F (Nat.le_refl _) Hlen Hmax) as S.
  simpl in S. change (Z.of_nat 0) with 0 in S.
  unfold solveColorProblem. rewrite Nat2Z.id, S.
  eexists. eexists. split; [reflexivity|].
  pose proof (length_filter (monochrome cs) edges_in) as Hf.
  split; [lia|]. split.
  - intros Hz ed Hed Hmono.
    assert (Hin : ed ∈ filter (monochrome cs) edges_in) by (by apply list_elem_of_filter).
    destruct (filter (monochrome cs) edges_in); [by apply elem_of_nil in Hin|simpl in Hz; lia].
  - intros Hall.
    destruct (filter (monochrome cs) edges_in) as [|ed l] eqn:E; [done|].
    assert (Hin : ed ∈ filter (monochrome cs) edges_in) by (rewrite E; left).
    apply list_elem_of_filter in Hin as [Hmono Hed].
    by destruct (Hall ed Hed).
Qed.

Lemma solveColorProblem_zero_iff_proper_coloring_witness :
  exists removed' count,
    solveColorProblem [1; 2; 3] [mkEdge 0 0; mkEdge 0 0]
        [mkEdge 0 1; mkEdge 1 2] (Z.of_nat (length [mkEdge 0 1; mkEdge 1 2]))
      = Some (removed', count) /\
    0 <= count <= Z.of_nat (length [mkEdge 0 1; mkEdge 1 2]) /\
    (count = 0 <->
     forall ed, ed ∈ [mkEdge 0 1; mkEdge 1 2] ->
                aget [1; 2; 3] (source ed) <> aget [1; 2; 3] (destination ed)).
Proof.
  apply (solveColorProblem_zero_iff_proper_coloring [1; 2; 3] [mkEdge 0 0; mkEdge 0 0]
           [mkEdge 0 1; mkEdge 1 2]).
  - repeat constructor; simpl; lia.
  - simpl. lia.
  - vm_compute. discriminate.
Defined.

(** Whatever the inputs, a defined result keeps the array's length and its
    count within the array. *)
Lemma solve_loop_count_le iters cs es : forall e removed c removed' c',
  solve_loop iters cs es e removed c = Some (removed', c') ->
  c <= Z.of_nat (length removed) ->
  length removed' = length removed /\ c' <= Z.of_nat (length removed).
Proof.
  induction iters as [|k IH]; intros e removed c removed' c' H Hc; simpl in H.
  - by injection H as <- <-.
  - destruct (aget es e) as [ed|]; simpl in H; [|done].
    destruct (aget cs (source ed)) as [c1|]; simpl in H; [|done].
    destruct (aget cs (destination ed)) as [c2|]; simpl in H; [|done].
    case_decide; [|by apply (IH _ _ _ _ _ H)].
    destruct (aget removed c) as [old|] eqn:Eo; simpl in H; [|done].
    destruct (aset removed c _) as [r1|] eqn:E1; simpl in H; [|done].
    destruct (aget r1 c) as [old1|]; simpl in H; [|done].
    destruct (aset r1 c _) as [r2|] eqn:E2; simpl in H; [|done].
    apply aget_Some in Eo as [Hr _].
    apply aset_Some in E1 as [_ ->]. apply aset_Some in E2 as [_ ->].
    apply IH in H.
    + rewrite !length_insert in H. done.
    + rewrite !length_insert.
      pose proof (wrap_int_le (c + 1)). lia.
Qed.

(** ** The start of the generator *)

(** X4. For a non-empty argument list whose last argument is
    [edge1-edge2], [numOfVertices] is max(edge1, edge2) + 1, whatever the
    earlier arguments are (as long as that sum fits an [int]); without
    arguments it is 0. *)
Theorem numOfVertices_is_last_argument_plus_one (args : list (Z * Z)) (edge1 edge2 : Z) :
  - 2 ^ 31 <= edge1 <= INT_MAX ->
  - 2 ^ 31 <= edge2 <= INT_MAX ->
  Z.max edge1 edge2 < INT_MAX ->
  numOfVertices_of (args ++ [(edge1, edge2)]) = Z.max edge1 edge2 + 1 /\
  numOfVertices_of [] = 0.
Proof.
  intros H1 H2 Hm. split; [|reflexivity].
  unfold numOfVertices_of. rewrite scan_max_last.
  apply wrap_int_id. lia.
Qed.

Lemma numOfVertices_is_last_argument_plus_one_witness :
  numOfVertices_of ([(7, 8); (2, 9)] ++ [(3, 1)]) = Z.max 3 1 + 1 /\
  numOfVertices_of [] = 0.
Proof.
  apply (numOfVertices_is_last_argument_plus_one [(7, 8); (2, 9)] 3 1);
    vm_compute; (split; discriminate) || reflexivity.
Defined.

Lemma in_colors_edges_of cs args :
  Forall (in_colors cs) (edges_of args)
  <-> Forall (arg_below (Z.of_nat (length cs))) args.
Proof.
  unfold edges_of. rewrite Forall_fmap. apply Forall_proper; [|done].
  intros [a b]. unfold in_colors, arg_below. simpl. done.
Qed.

Lemma first_candidate_unfold args rand :
  propose (gen_locals (init_generator args rand))
  = '(cs, calls) ← randomizeColors rand 0 (numOfVertices_of args)
                     (replicate (Z.to_nat (numOfVertices_of args)) 0);
    '(rem, cnt) ← solveColorProblem cs
                    (replicate (Z.to_nat (numOfEdges_of args)) (mkEdge 0 0))
                    (edges_of args) (numOfEdges_of args);
    Some (gen_candidate calls cs rem cnt
            (gen_locals (init_generator args rand))).
Proof. reflexivity. Qed.

(** X5. The first candidate of a generator (the declarations of [main],
    [randomizeColors] and [solveColorProblem]) is defined exactly when both
    numbers of every argument are vertices between 0 and [numOfVertices]
    - 1, whatever [rand()] returns. *)
Theorem generator_candidate_defined_iff_vertices_below
    (args : list (Z * Z)) (rand : nat -> Z) :
  Z.of_nat (length args) <= INT_MAX ->
  is_Some (propose (gen_locals (init_generator args rand)))
  <-> Forall (arg_below (numOfVertices_of args)) args.
Proof.
  intros Hmax. rewrite first_candidate_unfold.
  pose proof (wrap_int_range (scan_max args (-1) + 1)) as Hnv.
  fold (numOfVertices_of args) in Hnv.
  set (nv := numOfVertices_of args) in *.
  destruct (randomize_loop_spec rand (Z.to_nat nv) 0 0 (replicate (Z.to_nat nv) 0))
    as (cs' & E & L & _ & _).
  { rewrite length_replicate. lia. }
  { unfold INT_MAX in *. lia. }
  unfold randomizeColors. change (Z.of_nat 0) with 0 in E. rewrite E.
  cbn [mbind option_bind].
  rewrite length_replicate in L.
  assert (Hlen : length (edges_of args) = length args) by (unfold edges_of; apply length_map).
  unfold numOfEdges_of. rewrite <- Hlen in Hmax |- *. rewrite Nat2Z.id.
  assert (Hbelow : Forall (in_colors cs') (edges_of args) <-> Forall (arg_below nv) args).
  { rewrite in_colors_edges_of, L.
    apply Forall_proper; [|done]. intros [a b]. unfold arg_below. simpl. lia. }
  rewrite <- Hbelow.
  rewrite <- (solveColorProblem_defined cs'
                (replicate (length (edges_of args)) (mkEdge 0 0)) (edges_of args))
    by (rewrite ?length_replicate; done).
  destruct (solveColorProblem _ _ _ _) as [[rem cnt]|]; cbn [mbind option_bind].
  - split; intros _; by eexists.
  - split; intros [? ?]; done.
Qed.

Lemma generator_candidate_defined_iff_vertices_below_witness :
  is_Some (propose (gen_locals (init_generator [(0, 1); (1, 2)] always_zero)))
  <-> Forall (arg_below (numOfVertices_of [(0, 1); (1, 2)])) [(0, 1); (1, 2)].
Proof.
  apply (generator_candidate_defined_iff_vertices_below [(0, 1); (1, 2)] always_zero).
  vm_compute. discriminate.
Defined.

(** ** [writeBuff] and the print loop *)

Lemma write_loop_spec removed iters : forall (j : nat) slot_edges,
  (j + iters <= length removed)%nat ->
  (j + iters <= length slot_edges)%nat ->
  Z.of_nat (j + iters) <= INT_MAX ->
  write_loop iters (Z.of_nat j) removed slot_edges
  = Some (take j slot_edges ++ take iters (drop j removed) ++ drop (j + iters) slot_edges).
Proof.
  induction iters as [|k IH]; intros j slot_edges Hr Hs Hmax.
  - simpl. by rewrite Nat.add_0_r, take_drop.
  - destruct (lookup_lt_is_Some_2 removed j ltac:(lia)) as [r Er].
    destruct (lookup_lt_is_Some_2 slot_edges j ltac:(lia)) as [old Eold].
    simpl. rewrite !aget_of_nat, Er, Eold. simpl.
    rewrite aset_of_nat by lia. simpl.
    rewrite aget_of_nat, list_lookup_insert_eq by lia. simpl.
    rewrite aset_of_nat by (rewrite length_insert; lia). simpl.
    rewrite list_insert_insert_eq.
    replace (wrap_int (Z.of_nat j + 1)) with (Z.of_nat (S j))
      by (rewrite wrap_int_id; unfold INT_MAX in *; lia).
    rewrite IH by (rewrite ?length_insert; lia).
    replace {| source := source r; destination := destination r |} with r by (by destruct r).
    rewrite (take_S_r _ _ r) by (by rewrite list_lookup_insert_eq by lia).
    rewrite take_insert_ge by lia.
    rewrite drop_insert_lt by lia.
    rewrite (drop_S removed r j Er). simpl.
    rewrite <- app_assoc. simpl.
    replace (j + S k)%nat with (S (j + k)) by lia. done.
Qed.

Lemma write_slot_spec val removed pos buf cell :
  aget buf pos = Some cell ->
  (Z.to_nat val <= length removed)%nat ->
  (Z.to_nat val <= length (edges cell))%nat ->
  val <= INT_MAX ->
  write_slot val removed pos buf
  = Some (<[Z.to_nat pos :=
             mkRemovedEdge val (take (Z.to_nat val) removed
                                  ++ drop (Z.to_nat val) (edges cell))]> buf).
Proof.
  intros Hc Hr He Hmax. unfold write_slot. rewrite Hc. simpl.
  pose proof (write_loop_spec removed (Z.to_nat val) 0 (edges cell)) as W.
  simpl in W. change (Z.of_nat 0) with 0 in W.
  rewrite W by (unfold INT_MAX in *; lia). simpl.
  apply aget_Some in Hc as [Hpos _].
  unfold aset. by rewrite decide_True by done.
Qed.

(** X6. When [pos] is a cell of the buffer and [val] is at most the
    length of [removed_edges] and of the cell's edge array, the stores of
    [writeBuff] succeed: the cell at [pos] announces [val] edges, its first
    [val] edges are the first [val] of [removed_edges], its other edges,
    all other cells and the length of the buffer are unchanged. *)
Theorem writeBuff_stores_the_candidate
    (val : Z) (removed : list edge) (pos : Z) (buf : list removedEdge) (cell : removedEdge) :
  aget buf pos = Some cell ->
  (Z.to_nat val <= length removed)%nat ->
  (Z.to_nat val <= length (edges cell))%nat ->
  val <= INT_MAX ->
  exists buf' cell',
    write_slot val removed pos buf = Some buf' /\
    length buf' = length buf /\
    aget buf' pos = Some cell' /\
    numOfEdges cell' = val /\
    take (Z.to_nat val) (edges cell') = take (Z.to_nat val) removed /\
    drop (Z.to_nat val) (edges cell') = drop (Z.to_nat val) (edges cell) /\
    forall other, other <> pos -> aget buf' other = aget buf other.
Proof.
  intros Hc Hr He Hmax.
  rewrite (write_slot_spec val removed pos buf cell Hc Hr He Hmax).
  apply aget_Some in Hc as [Hpos Hc].
  assert (Hl : length (take (Z.to_nat val) removed) = Z.to_nat val)
    by (rewrite length_take; lia).
  eexists. eexists. split; [reflexivity|].
  split; [apply length_insert|]. split.
  { unfold aget. rewrite decide_True by lia. apply list_lookup_insert_eq. lia. }
  simpl. split; [done|]. split; [|split].
  - rewrite <- Hl at 1. rewrite take_app_length. done.
  - rewrite <- Hl at 1. rewrite drop_app_length. done.
  - intros other Hne. unfold aget. case_decide; [|done].
    apply list_lookup_insert_ne. lia.
Qed.

Lemma writeBuff_stores_the_candidate_witness :
  exists buf' cell',
    write_slot 1 [mkEdge 1 0] 7 (removed_edges zero_shm) = Some buf' /\
    length buf' = length (removed_edges zero_shm) /\
    aget buf' 7 = Some cell' /\
    numOfEdges cell' = 1 /\
    take (Z.to_nat 1) (edges cell') = take (Z.to_nat 1) [mkEdge 1 0] /\
    drop (Z.to_nat 1) (edges cell')
      = drop (Z.to_nat 1)
          (edges (mkRemovedEdge 0 (replicate (Z.to_nat MAX_SOLUTION_EDGES) (mkEdge 0 0)))) /\
    forall other, other <> 7 -> aget buf' other = aget (removed_edges zero_shm) other.
Proof.
  apply (writeBuff_stores_the_candidate 1 [mkEdge 1 0] 7 (removed_edges zero_shm)
           (mkRemovedEdge 0 (replicate (Z.to_nat MAX_SOLUTION_EDGES) (mkEdge 0 0)))).
  - reflexivity.
  - simpl. lia.
  - simpl. lia.
  - vm_compute. discriminate.
Defined.

Lemma print_loop_spec (es : list edge) (n : nat) : forall m,
  (m + n <= length es)%nat ->
  mapM (fun j => ed ← aget es j; Some (source ed, destination ed))
       ((fun i => Z.of_nat i + 0) <$> seq m n)
  = Some (edge_pair <$> take n (drop m es)).
Proof.
  induction n as [|n IH]; intros m Hm.
  - done.
  - destruct (lookup_lt_is_Some_2 es m ltac:(lia)) as [ed Eed].
    simpl. rewrite Z.add_0_r, aget_of_nat, Eed. simpl.
    rewrite IH by lia. simpl.
    rewrite (drop_S es ed m Eed). done.
Qed.

Lemma printed_edges_spec k cell :
  (Z.to_nat k <= length (edges cell))%nat ->
  printed_edges k cell = Some (edge_pair <$> take (Z.to_nat k) (edges cell)).
Proof.
  intros H. unfold printed_edges, seqZ.
  rewrite (print_loop_spec (edges cell) (Z.to_nat k) 0) by lia. done.
Qed.

(** X7. Round trip: the print loop of the supervisor, run on the cell
    that [writeBuff] has just filled and with the count stored there, lists
    exactly the first [val] edges of the generator's [removed_edges], in
    order. *)
Theorem written_candidate_prints_its_edges
    (val : Z) (removed : list edge) (pos : Z) (buf : list removedEdge) (cell : removedEdge) :
  aget buf pos = Some cell ->
  (Z.to_nat val <= length removed)%nat ->
  (Z.to_nat val <= length (edges cell))%nat ->
  val <= INT_MAX ->
  exists buf' cell',
    write_slot val removed pos buf = Some buf' /\
    aget buf' pos = Some cell' /\
    printed_edges (numOfEdges cell') cell'
      = Some (edge_pair <$> take (Z.to_nat val) removed).
Proof.
  intros Hc Hr He Hmax.
  rewrite (write_slot_spec val removed pos buf cell Hc Hr He Hmax).
  apply aget_Some in Hc as [Hpos Hc].
  assert (Hl : length (take (Z.to_nat val) removed) = Z.to_nat val)
    by (rewrite length_take; lia).
  eexists. eexists. split; [reflexivity|]. split.
  { unfold aget. rewrite decide_True by lia. apply list_lookup_insert_eq. lia. }
  rewrite printed_edges_spec; simpl.
  - rewrite <- Hl at 1. by rewrite take_app_length.
  - rewrite length_app, Hl. lia.
Qed.

Lemma written_candidate_prints_its_edges_witness :
  exists buf' cell',
    write_slot 2 [mkEdge 1 0; mkEdge 2 1; mkEdge 5 5] 3 (removed_edges zero_shm) = Some buf' /\
    aget buf' 3 = Some cell' /\
    printed_edges (numOfEdges cell') cell'
      = Some (edge_pair <$> take (Z.to_nat 2) [mkEdge 1 0; mkEdge 2 1; mkEdge 5 5]).
Proof.
  apply (written_candidate_prints_its_edges 2 [mkEdge 1 0; mkEdge 2 1; mkEdge 5 5] 3
           (removed_edges zero_shm)
           (mkRemovedEdge 0 (replicate (Z.to_nat MAX_SOLUTION_EDGES) (mkEdge 0 0)))).
  - reflexivity.
  - simpl. lia.
  - simpl. lia.
  - vm_compute. discriminate.
Defined.

(** ** Invariants of a session *)

Lemma run_invariant (P : system -> Prop) :
  (forall ev σ σ', sys_step ev σ = Some σ' -> P σ -> P σ') ->
  forall tr σ σ', run tr σ = Some σ' -> P σ -> P σ'.
Proof.
  intros Hstep. induction tr as [|ev tr IH]; intros σ σ' H HP; simpl in H.
  - by injection H as <-.
  - destruct (sys_step ev σ) as [σ1|] eqn:E; simpl in H; [|done].
    apply (IH σ1 σ' H). by apply (Hstep ev σ).
Qed.

Lemma next_pos_range pos : 0 <= next_pos pos < sizeof_ptr.
Proof.
  unfold next_pos, next_pos_on, sizeof_ptr.
  set (x := to_size_t 8 (wrap_int (pos + 1))).
  assert (0 <= x `mod` 8 < 8) by (apply Z.mod_pos_bound; lia).
  rewrite wrap_int_id; unfold INT_MAX; lia.
Qed.

Lemma propose_keeps g g1 :
  propose g = Some g1 ->
  g_pc g1 = g_pc g /\ wr_pos g1 = wr_pos g /\
  removed_edges_count g1 <= Z.of_nat (length (g_removed_edges g1)).
Proof.
  unfold propose. intros H.
  destruct (randomizeColors _ _ _ _) as [[cs calls]|]; simpl in H; [|done].
  destruct (solveColorProblem _ _ _ _) as [[rem cnt]|] eqn:E; simpl in H; [|done].
  injection H as <-. simpl. repeat split.
  unfold solveColorProblem in E.
  apply solve_loop_count_le in E as [L E]; [rewrite L; lia|lia].
Qed.

Lemma write_loop_length removed iters : forall j slot_edges es,
  write_loop iters j removed slot_edges = Some es -> length es = length slot_edges.
Proof.
  induction iters as [|k IH]; intros j slot_edges es H; simpl in H.
  - by injection H as <-.
  - destruct (aget removed j) as [r|]; simpl in H; [|done].
    destruct (aget slot_edges j) as [old|]; simpl in H; [|done].
    destruct (aset slot_edges j _) as [s1|] eqn:E1; simpl in H; [|done].
    destruct (aget s1 j) as [old1|]; simpl in H; [|done].
    destruct (aset s1 j _) as [s2|] eqn:E2; simpl in H; [|done].
    apply aset_Some in E1 as [_ ->]. apply aset_Some in E2 as [_ ->].
    apply IH in H. by rewrite H, !length_insert.
Qed.

Lemma write_slot_keeps_layout val removed pos m buf :
  segment_ok m -> val <= MAX_SOLUTION_EDGES ->
  write_slot val removed pos (removed_edges m) = Some buf ->
  segment_ok (shm_removed_edges buf m).
Proof.
  intros [Hl Hc] Hval H. unfold write_slot in H.
  destruct (aget (removed_edges m) pos) as [cell|] eqn:Ec; simpl in H; [|done].
  destruct (write_loop _ _ _ _) as [es|] eqn:Ew; simpl in H; [|done].
  apply aset_Some in H as [_ ->].
  apply aget_Some in Ec as [_ Ec].
  apply write_loop_length in Ew.
  split; simpl.
  - by rewrite length_insert.
  - apply Forall_insert; [done|].
    split; simpl; [done|].
    rewrite Ew. by apply (Forall_lookup_1 _ _ _ _ Hc Ec).
Qed.

Lemma segment_ok_zero : segment_ok zero_shm.
Proof.
  unfold segment_ok, zero_shm. cbn [removed_edges].
  split; [apply length_replicate|]. apply Forall_replicate.
  split; cbn [numOfEdges edges]; [unfold MAX_SOLUTION_EDGES; lia|apply length_replicate].
Qed.

Lemma gen_safe_mono (P Q : Prop) g : (P -> Q) -> gen_safe P g -> gen_safe Q g.
Proof. unfold gen_safe. tauto. Qed.

Lemma segment_ok_fields m :
  (forall v, segment_ok (shm_generator_count v m) <-> segment_ok m) /\
  (forall v, segment_ok (shm_state v m) <-> segment_ok m).
Proof. done. Qed.

Lemma cell_read_ok m pos cell :
  segment_ok m -> aget (removed_edges m) pos = Some cell -> cell_ok cell.
Proof.
  intros [_ Hc] H. apply aget_Some in H as [_ H].
  by apply (Forall_lookup_1 _ _ _ _ Hc H).
Qed.

Ltac safe_goals Hseg Hmap Hgens :=
  repeat match goal with
  | |- _ /\ _ => split
  | |- Forall _ _ =>
      eapply Forall_impl; [exact Hgens|intros ?; apply gen_safe_mono; intros ?]
  | |- forall m, Some _ = Some m -> _ => intros ? [= <-]
  | |- forall m, None = Some m -> _ => intros ? [=]
  | |- _ = true -> is_Some _ => intros ?
  | |- segment_ok (shm_generator_count _ _) => apply segment_ok_fields
  | |- segment_ok (shm_state _ _) => apply segment_ok_fields
  | |- segment_ok (default zero_shm ?o) =>
      destruct o eqn:?; cbn [default from_option]; [|apply segment_ok_zero]
  end.

Lemma sup_step_buffer_safe o σ σ' :
  sup_step o σ = Some σ' -> buffer_safe σ -> buffer_safe σ'.
Proof.
  unfold sup_step, buffer_safe.
  intros H (Hseg & Hrd & Hrc & Htemp & Hmap & Hgens).
  pose proof (next_pos_range (rd_pos (sup σ))) as Hnext.
  destruct (s_pc (sup σ)) eqn:Epc; cbn [sup_mapped] in Hmap;
    simpl in H; unfold sem_wait in H;
    destruct o; step_cases; repeat case_decide;
    cbn [sup rd_pos r_count temp s_pc shm gens sys_sup sys_shm sys_sems count_read
         count_shutdown_post sup_at sup_best sup_print sup_fail sup_temp sup_rd_pos
         sup_r_count sup_fan_i sup_quit sup_mapped];
    known_fields; safe_goals Hseg Hmap Hgens;
    try done; try lia; eauto;
    try (match goal with
         | E : aget (removed_edges ?m) _ = Some ?c |- numOfEdges ?c <= _ =>
             destruct (cell_read_ok m _ c (Hseg m eq_refl) E) as [? _]; done
         end).
Qed.

Lemma handle_signal_buffer_safe σ σ' :
  handle_signal σ = Some σ' -> buffer_safe σ -> buffer_safe σ'.
Proof.
  unfold handle_signal, buffer_safe.
  intros H (Hseg & Hrd & Hrc & Htemp & Hmap & Hgens).
  destruct (s_pc (sup σ)) eqn:Epc; simpl in H; step_cases; simpl; rewrite ?Epc; done.
Qed.

Lemma gen_step_buffer_safe i o σ σ' :
  gen_step i o σ = Some σ' -> buffer_safe σ -> buffer_safe σ'.
Proof.
  unfold gen_step, buffer_safe.
  intros H (Hseg & Hrd & Hrc & Htemp & Hmap & Hgens).
  destruct (gens σ !! i) as [g|] eqn:Eg; simpl in H; [|done].
  pose proof (Forall_lookup_1 _ _ _ _ Hgens Eg) as (Hwr & Hcnt & Hpub & Hatt).
  pose proof (next_pos_range (wr_pos g)) as Hnext.
  destruct (g_pc g) eqn:Epc; cbn [publishing attached] in Hpub, Hatt;
    simpl in H; unfold sem_wait in H;
    destruct o; step_cases; repeat case_decide;
    repeat match goal with
    | E : propose _ = Some _ |- _ => apply propose_keeps in E as (? & ? & ?)
    end;
    cbn [sup rd_pos r_count temp s_pc shm gens sys_sup sys_shm sys_sems sys_gen count_write];
    known_fields;
    repeat match goal with
    | |- _ /\ _ => split
    | |- Forall _ (<[_ := _]> _) => apply Forall_insert
    | |- Forall _ _ =>
        eapply Forall_impl; [exact Hgens|intros ?; apply gen_safe_mono; intros ?]
    | |- forall m, Some _ = Some m -> _ => intros ? [= <-]
    | |- forall m, None = Some m -> _ => intros ? [=]
    | |- segment_ok (shm_generator_count _ _) => apply segment_ok_fields
    | E : write_slot ?v ?r ?p (removed_edges ?m) = Some ?l
      |- segment_ok (shm_removed_edges ?l ?m) =>
        apply (write_slot_keeps_layout v r p m l);
          [by apply Hseg|by apply Hpub|exact E]
    | |- gen_safe _ _ => unfold gen_safe; simpl
    | |- _ = true -> _ => intros ?
    end;
    try done; try lia; eauto; simpl in *; try lia; try congruence.
Qed.

Lemma sys_step_buffer_safe ev σ σ' :
  sys_step ev σ = Some σ' -> buffer_safe σ -> buffer_safe σ'.
Proof.
  destruct ev as [|o|i o]; simpl.
  - apply handle_signal_buffer_safe.
  - apply sup_step_buffer_safe.
  - apply gen_step_buffer_safe.
Qed.

Lemma init_buffer_safe leftover gs :
  (forall m, leftover = Some m -> segment_ok m) ->
  buffer_safe (init_system leftover gs).
Proof.
  intros Hl. unfold buffer_safe, init_system. simpl.
  split; [exact Hl|].
  split; [unfold sizeof_ptr; lia|].
  split; [unfold MAX_SOLUTION_EDGES; lia|].
  split; [unfold MAX_SOLUTION_EDGES; lia|].
  split; [done|].
  apply Forall_fmap, Forall_forall. intros a _.
  unfold gen_safe. simpl. repeat split; try done; unfold sizeof_ptr; lia.
Qed.








(** X9. When the segment found at the start, if any, has the layout of
    [struct myshm] with counts of at most MAX_SOLUTION_EDGES, then after
    every schedule every cell of the buffer announces at most
    MAX_SOLUTION_EDGES edges in an array of MAX_SOLUTION_EDGES, and a
    generator about to store a candidate holds one of at most
    MAX_SOLUTION_EDGES edges. *)
Theorem published_candidates_fit_the_cells leftover gs tr σ :
  (forall m, leftover = Some m -> segment_ok m) ->
  run tr (init_system leftover gs) = Some σ ->
  (forall m cell,
     shm σ = Some m -> cell ∈ removed_edges m ->
     numOfEdges cell <= MAX_SOLUTION_EDGES /\
     length (edges cell) = Z.to_nat MAX_SOLUTION_EDGES) /\
  (forall i g,
     gens σ !! i = Some g -> g_pc g = G_write_slot ->
     removed_edges_count g <= MAX_SOLUTION_EDGES).
Proof.
  intros Hl Hrun.
  pose proof (run_invariant _ sys_step_buffer_safe tr _ _ Hrun (init_buffer_safe _ gs Hl))
    as (Hseg & _ & _ & _ & _ & Hgens).
  split.
  - intros m cell Hm Hc. destruct (Hseg m Hm) as [_ Hcells].
    by apply (proj1 (Forall_forall _ _) Hcells).
  - intros i g Hg Hpc.
    destruct (Forall_lookup_1 _ _ _ _ Hgens Hg) as (_ & _ & Hpub & _).
    apply Hpub. by rewrite Hpc.
Qed.

(** X10. Under the same condition, after every schedule the accesses to
    the buffer are inside it: the supervisor's read of the count, its print
    loop and the stores of a generator in [writeBuff] are all defined,
    whatever the outcome of the step. *)
Theorem buffer_accesses_are_defined leftover gs tr σ :
  (forall m, leftover = Some m -> segment_ok m) ->
  run tr (init_system leftover gs) = Some σ ->
  (s_pc (sup σ) = S_read_count \/ s_pc (sup σ) = S_compare ->
   forall o, is_Some (sup_step o σ)) /\
  (forall i g o,
     gens σ !! i = Some g -> g_pc g = G_write_slot -> is_Some (gen_step i o σ)).
Proof.
  intros Hl Hrun.
  pose proof (run_invariant _ sys_step_buffer_safe tr _ _ Hrun (init_buffer_safe _ gs Hl))
    as (Hseg & Hrd & Hrc & Htemp & Hmap & Hgens).
  assert (Hcell : forall m pos, shm σ = Some m -> 0 <= pos < sizeof_ptr ->
                    exists cell, aget (removed_edges m) pos = Some cell /\ cell_ok cell).
  { intros m pos Hm Hp. destruct (Hseg m Hm) as [Hlen Hcells].
    destruct (aget_in_range (removed_edges m) pos) as [cell Hc].
    { rewrite Hlen. unfold sizeof_ptr, MAX_DATA in *. lia. }
    exists cell. split; [done|]. by apply (cell_read_ok m pos). }
  split.
  - intros Hpc o. unfold sup_step.
    destruct Hpc as [Hpc|Hpc]; rewrite Hpc in Hmap |- *;
      destruct (Hmap eq_refl) as [m Hm]; destruct (Hcell m _ Hm Hrd) as (cell & Hc & [Hn He]).
    + rewrite Hm. simpl. rewrite Hc. simpl. by eexists.
    + repeat case_decide; try by eexists.
      rewrite Hm. simpl. rewrite Hc. simpl.
      rewrite printed_edges_spec by (rewrite He; unfold MAX_SOLUTION_EDGES in *; lia).
      simpl. by eexists.
  - intros i g o Hg Hpc. unfold gen_step. rewrite Hg. simpl. rewrite Hpc.
    destruct (Forall_lookup_1 _ _ _ _ Hgens Hg) as (Hwr & Hcnt & Hpub & Hatt).
    rewrite Hpc in Hpub, Hatt. destruct (Hatt eq_refl) as [m Hm].
    destruct (Hcell m _ Hm Hwr) as (cell & Hc & [Hn He]).
    rewrite Hm. simpl.
    rewrite (write_slot_spec _ _ _ _ cell Hc).
    + simpl. by eexists.
    + lia.
    + rewrite He. specialize (Hpub eq_refl). unfold MAX_SOLUTION_EDGES in *. lia.
    + specialize (Hpub eq_refl). unfold MAX_SOLUTION_EDGES, INT_MAX in *. lia.
Qed.

Lemma published_candidates_fit_the_cells_witness :
  (forall m cell,
     shm about_to_write = Some m -> cell ∈ removed_edges m ->
     numOfEdges cell <= MAX_SOLUTION_EDGES /\
     length (edges cell) = Z.to_nat MAX_SOLUTION_EDGES) /\
  (forall i g,
     gens about_to_write !! i = Some g -> g_pc g = G_write_slot ->
     removed_edges_count g <= MAX_SOLUTION_EDGES).
Proof.
  apply (published_candidates_fit_the_cells None [([(0, 1)], always_zero)]
           (repeat sup_ok 3 ++ repeat (gen_ok 0) 7) about_to_write).
  - intros m. discriminate.
  - vm_compute. reflexivity.
Defined.

Lemma buffer_accesses_are_defined_witness :
  (s_pc (sup about_to_write) = S_read_count \/ s_pc (sup about_to_write) = S_compare ->
   forall o, is_Some (sup_step o about_to_write)) /\
  (forall i g o,
     gens about_to_write !! i = Some g -> g_pc g = G_write_slot ->
     is_Some (gen_step i o about_to_write)).
Proof.
  apply (buffer_accesses_are_defined None [([(0, 1)], always_zero)]
           (repeat sup_ok 3 ++ repeat (gen_ok 0) 7) about_to_write).
  - intros m. discriminate.
  - vm_compute. reflexivity.
Defined.

(** ** The lines the supervisor prints *)

Lemma improving_snoc_other out o :
  improving out -> (forall k es, o <> Solution k es) -> improving (out ++ [o]).
Proof.
  intros Himp Ho i j ki kj esi esj Hij Hi Hj.
  apply lookup_snoc_Some in Hj as [[Hlt Hj]|[_ Hj]]; [|by destruct (Ho kj esj)].
  rewrite lookup_app_l in Hi by lia. by apply (Himp i j ki kj esi esj).
Qed.

Lemma bounded_below_snoc_other b out o :
  bounded_below b out -> (forall k es, o <> Solution k es) -> bounded_below b (out ++ [o]).
Proof.
  intros Hb Ho i k es Hi.
  apply lookup_snoc_Some in Hi as [[_ Hi]|[_ Hi]]; [by apply (Hb i k es)|by destruct (Ho k es)].
Qed.

Lemma improving_snoc_solution b out k es :
  improving out -> bounded_below b out -> k < b -> improving (out ++ [Solution k es]).
Proof.
  intros Himp Hb Hk i j ki kj esi esj Hij Hi Hj.
  apply lookup_snoc_Some in Hj as [[Hlt Hj]|[Hlen Hj]].
  - rewrite lookup_app_l in Hi by lia. by apply (Himp i j ki kj esi esj).
  - injection Hj as <- <-. rewrite lookup_app_l in Hi by lia.
    pose proof (Hb i ki esi Hi). lia.
Qed.

Lemma bounded_below_snoc_solution b out k es :
  bounded_below b out -> k < b -> bounded_below k (out ++ [Solution k es]).
Proof.
  intros Hb Hk i k' es' Hi.
  apply lookup_snoc_Some in Hi as [[_ Hi]|[_ Hi]].
  - pose proof (Hb i k' es' Hi). lia.
  - injection Hi as <- <-. lia.
Qed.

Lemma no_solution_snoc_other out o :
  no_solution out -> (forall k es, o <> Solution k es) -> no_solution (out ++ [o]).
Proof.
  intros Hn Ho i k es Hi.
  apply lookup_snoc_Some in Hi as [[_ Hi]|[_ Hi]]; [by apply (Hn i k es)|by destruct (Ho k es)].
Qed.

Lemma no_solution_bounded_below b out : no_solution out -> bounded_below b out.
Proof. intros Hn i k es Hi. by destruct (Hn i k es). Qed.

Lemma sys_step_solutions ev σ σ' :
  sys_step ev σ = Some σ' -> solutions_inv σ -> solutions_inv σ'.
Proof.
  unfold solutions_inv. intros H (Himp & Hin & Hbefore).
  destruct ev as [|o|i o]; simpl in H.
  - unfold handle_signal in H.
    destruct (s_pc (sup σ)) eqn:Epc; simpl in H; step_cases; simpl; rewrite ?Epc; done.
  - unfold sup_step in H.
    destruct (s_pc (sup σ)) eqn:Epc; cbn [in_read_loop after_read_loop] in Hin, Hbefore;
      simpl in H; unfold sem_wait in H;
      destruct o; step_cases; repeat case_decide;
      cbn [sup s_out s_pc curr_best_solution sys_sup sys_shm sys_sems count_read
           count_shutdown_post sup_at sup_best sup_print sup_fail sup_temp sup_rd_pos
           sup_r_count sup_fan_i in_read_loop after_read_loop];
      repeat match goal with
      | |- _ /\ _ => split
      | |- _ = _ -> _ => intros ?
      | |- improving (_ ++ [Solution _ _]) => eapply improving_snoc_solution; eauto
      | |- bounded_below _ (_ ++ [Solution _ _]) => eapply bounded_below_snoc_solution; eauto
      | |- improving (_ ++ [_]) => apply improving_snoc_other; [|done]
      | |- bounded_below _ (_ ++ [_]) => apply bounded_below_snoc_other; [|done]
      | |- no_solution (_ ++ [_]) => apply no_solution_snoc_other; [|done]
      end; try done; eauto using no_solution_bounded_below.
  - unfold gen_step in H.
    destruct (gens σ !! i) as [g|] eqn:Eg; simpl in H; [|done].
    destruct (g_pc g) eqn:Epc; simpl in H; unfold sem_wait in H;
      destruct o; step_cases; repeat case_decide; done.
Qed.

Lemma init_solutions leftover gs : solutions_inv (init_system leftover gs).
Proof.
  unfold solutions_inv, init_system. simpl.
  split; [|split]; [intros i j ? ? ? ? _ Hi; done|done|intros _ _ i k es Hi; done].
Qed.

(** X12. In every session and after every schedule, each
    "Solution with k edges" line of the supervisor announces strictly fewer
    edges than every such line printed before it. *)
Theorem supervisor_prints_strictly_improving_solutions leftover gs tr σ :
  run tr (init_system leftover gs) = Some σ ->
  forall i j ki kj esi esj,
    (i < j)%nat ->
    s_out (sup σ) !! i = Some (Solution ki esi) ->
    s_out (sup σ) !! j = Some (Solution kj esj) ->
    kj < ki.
Proof.
  intros Hrun.
  by pose proof (run_invariant _ sys_step_solutions tr _ _ Hrun (init_solutions leftover gs))
    as [Himp _].
Qed.

Lemma supervisor_prints_strictly_improving_solutions_witness : 1 < 2.
Proof.
  apply (supervisor_prints_strictly_improving_solutions None
           [([(0, 1); (1, 2)], two_then_one)]
           (repeat sup_ok 3 ++ repeat (gen_ok 0) 17 ++ repeat sup_ok 12)
           two_lines_printed) with (i := 0%nat) (j := 1%nat)
           (esi := [(1, 0); (0, 0)]) (esj := [(0, 0)]).
  - vm_compute. reflexivity.
  - lia.
  - vm_compute. reflexivity.
  - vm_compute. reflexivity.
Defined.

(** ** The value of [mutex_sem] *)

Lemma tally_insert f gs : forall i g g',
  gs !! i = Some g ->
  tally f (<[i := g']> gs) = tally f gs - f (g_pc g) + f (g_pc g').
Proof.
  induction gs as [|h gs IH]; intros [|i] g g' H; simpl in *; try done.
  - injection H as ->. lia.
  - rewrite (IH i g g' H). lia.
Qed.

Lemma tally_lookup f gs i g :
  (forall pc, 0 <= f pc) -> gs !! i = Some g -> f (g_pc g) <= tally f gs.
Proof.
  intros Hf. revert i. induction gs as [|h gs IH]; intros [|i] H; simpl in *; try done.
  - injection H as ->.
    assert (0 <= tally f gs) by (clear IH; induction gs; simpl; [lia|]; specialize (Hf (g_pc a)); lia).
    lia.
  - specialize (IH i H). specialize (Hf (g_pc h)). lia.
Qed.

Lemma tally_init f gs :
  f G_start = 0 -> tally f (map (fun a => init_generator (fst a) (snd a)) gs) = 0.
Proof. intros Hf. induction gs as [|a gs IH]; simpl; [done|]. rewrite IH, Hf. done. Qed.

Lemma posted_nonneg pc : 0 <= posted pc.
Proof. destruct pc; simpl; lia. Qed.

Lemma sys_step_mutex ev σ σ' :
  succeeds ev = true -> sys_step ev σ = Some σ' -> mutex_inv σ -> mutex_inv σ'.
Proof.
  unfold mutex_inv. intros Hok H I.
  destruct ev as [|[]|i []]; simpl in H, Hok; try done.
  - unfold handle_signal in H.
    destruct (s_pc (sup σ)) eqn:Epc; simpl in H; step_cases; simpl;
      destruct (sems σ); rewrite ?Epc in *; simpl in *; try done; by destruct I.
  - unfold sup_step in H.
    destruct (s_pc (sup σ)) eqn:Epc; simpl in H; unfold sem_wait in H; step_cases;
      simpl in *; known_fields; simpl; try lia;
      destruct (sems σ); simpl in *; try lia; try (by destruct I); try done.
  - unfold gen_step in H.
    destruct (gens σ !! i) as [g|] eqn:Eg; simpl in H; [|done].
    destruct (g_pc g) eqn:Epc; simpl in H; unfold sem_wait in H; step_cases;
      repeat match goal with
      | E : propose _ = Some _ |- _ => apply propose_keeps in E as (? & ? & ?)
      end;
      simpl in *; known_fields; simpl;
      rewrite ?(tally_insert _ _ _ _ _ Eg), ?Epc in *; simpl in *; try lia.
    all: destruct (sems σ) eqn:Es; simpl in *; simplify_eq; try lia.
    all: destruct I; split; [done|lia].
Qed.

Lemma run_invariant_succeeding (P : system -> Prop) :
  (forall ev σ σ', succeeds ev = true -> sys_step ev σ = Some σ' -> P σ -> P σ') ->
  forall tr σ σ', run tr σ = Some σ' -> forallb succeeds tr = true -> P σ -> P σ'.
Proof.
  intros Hstep. induction tr as [|ev tr IH]; intros σ σ' H Hok HP; simpl in H.
  - by injection H as <-.
  - destruct (sys_step ev σ) as [σ1|] eqn:E; simpl in H; [|done].
    simpl in Hok. apply andb_prop in Hok as [Hev Hok].
    apply (IH σ1 σ' H Hok). by apply (Hstep ev σ).
Qed.

Lemma init_mutex leftover gs : mutex_inv (init_system leftover gs).
Proof. unfold mutex_inv, init_system. simpl. split; [done|]. by apply tally_init. Qed.

(** X13. In every session and after every schedule whose calls all
    succeeded, [mutex_sem] is 1 plus the number of generators between their
    [sem_post(mutex_sem)] and their [sem_wait(mutex_sem)], minus 1 while the
    supervisor is between its wait and its post; hence no process about to
    execute [sem_wait(mutex_sem)] is blocked there. *)
Theorem mutex_wait_never_blocks leftover gs tr σ :
  run tr (init_system leftover gs) = Some σ ->
  forallb succeeds tr = true ->
  (forall ss, sems σ = Some ss ->
              mutex_sem ss = 1 + tally posted (gens σ) - holding (s_pc (sup σ))) /\
  (s_pc (sup σ) = S_lock -> is_Some (sup_step Success σ)) /\
  (forall i g, gens σ !! i = Some g ->
               g_pc g = G_reg_wait \/ g_pc g = G_pub_wait ->
               is_Some (gen_step i Success σ)).
Proof.
  intros Hrun Hok.
  pose proof (run_invariant_succeeding _ sys_step_mutex tr _ _ Hrun Hok (init_mutex leftover gs))
    as I.
  unfold mutex_inv in I. split; [|split].
  - intros ss Hss. by rewrite Hss in I.
  - intros Hpc. unfold sup_step. rewrite Hpc.
    destruct (sems σ) as [ss|]; [|destruct I; congruence].
    rewrite Hpc in I. simpl in I. simpl. unfold sem_wait. simpl.
    pose proof (tally_lookup posted (gens σ)) as T.
    assert (0 <= tally posted (gens σ)).
    { clear. induction (gens σ) as [|g l IH]; simpl; [lia|].
      pose proof (posted_nonneg (g_pc g)). lia. }
    rewrite decide_True by lia. simpl. by eexists.
  - intros i g Hg Hpc. unfold gen_step. rewrite Hg. simpl.
    pose proof (tally_lookup posted (gens σ) i g posted_nonneg Hg) as T.
    assert (Hp : posted (g_pc g) = 1) by (destruct Hpc as [-> | ->]; done).
    assert (Hh : holding (s_pc (sup σ)) <= 1) by (destruct (s_pc (sup σ)); simpl; lia).
    destruct (sems σ) as [ss|]; [|destruct I; lia].
    destruct Hpc as [-> | ->]; simpl; unfold sem_wait; simpl;
      (rewrite decide_True by lia); simpl; by eexists.
Qed.

Lemma mutex_wait_never_blocks_witness :
  (forall ss, sems at_shutdown = Some ss ->
              mutex_sem ss
              = 1 + tally posted (gens at_shutdown) - holding (s_pc (sup at_shutdown))) /\
  (s_pc (sup at_shutdown) = S_lock -> is_Some (sup_step Success at_shutdown)) /\
  (forall i g, gens at_shutdown !! i = Some g ->
               g_pc g = G_reg_wait \/ g_pc g = G_pub_wait ->
               is_Some (gen_step i Success at_shutdown)).
Proof.
  apply (mutex_wait_never_blocks None [([(0, 1)], always_zero)]
           (repeat sup_ok 3 ++ repeat (gen_ok 0) 4 ++ [ESignal; sup_ok]) at_shutdown).
  - vm_compute. reflexivity.
  - reflexivity.
Defined.

(** ** After the signal, after the flag *)

Lemma sys_step_stopping b ev σ σ' :
  sys_step ev σ = Some σ' -> stopping_inv b σ -> stopping_inv b σ'.
Proof.
  unfold stopping_inv. intros H [Hq Hb].
  destruct ev as [|o|i o]; simpl in H.
  - unfold handle_signal in H.
    destruct (s_pc (sup σ)) eqn:Epc; simpl in H; step_cases; simpl; rewrite ?Epc; done.
  - unfold sup_step in H.
    destruct (s_pc (sup σ)) eqn:Epc; simpl in H; unfold sem_wait in H;
      destruct o; step_cases; repeat case_decide; simpl in *; try done; split; try done; lia.
  - unfold gen_step in H.
    destruct (gens σ !! i) as [g|] eqn:Eg; simpl in H; [|done].
    destruct (g_pc g) eqn:Epc; simpl in H; unfold sem_wait in H;
      destruct o; step_cases; repeat case_decide; done.
Qed.

(** X14. From a state in which [quit] is set, whatever the schedule,
    [quit] stays set and the supervisor completes at most one further read:
    one if it is inside [readBuff] before [sem_post(free_sem)], none
    otherwise. *)
Theorem after_the_signal_at_most_one_read tr σ σ' :
  quit (sup σ) <> 0 ->
  run tr σ = Some σ' ->
  quit (sup σ') <> 0 /\
  reads_completed σ' <= reads_completed σ + pending_read (s_pc (sup σ)) /\
  reads_completed σ' <= reads_completed σ + 1.
Proof.
  intros Hq Hrun.
  assert (I : stopping_inv (reads_completed σ + pending_read (s_pc (sup σ))) σ)
    by (split; [done|lia]).
  pose proof (run_invariant _ (sys_step_stopping _) tr _ _ Hrun I) as [Hq' Hb].
  assert (0 <= pending_read (s_pc (sup σ')) <= 1) by (destruct (s_pc (sup σ')); simpl; lia).
  assert (0 <= pending_read (s_pc (sup σ)) <= 1) by (destruct (s_pc (sup σ)); simpl; lia).
  repeat split; try done; lia.
Qed.

Lemma may_write_nonneg pc : 0 <= may_write pc.
Proof. destruct pc; simpl; lia. Qed.

Lemma sys_step_flagged b ev σ σ' :
  sys_step ev σ = Some σ' -> flagged_inv b σ -> flagged_inv b σ'.
Proof.
  unfold flagged_inv. intros H [(m & Hm & Hs) Hb].
  destruct ev as [|o|i o]; simpl in H.
  - unfold handle_signal in H.
    destruct (s_pc (sup σ)) eqn:Epc; simpl in H; step_cases; simpl; eauto.
  - unfold sup_step in H.
    destruct (s_pc (sup σ)) eqn:Epc; simpl in H; unfold sem_wait in H;
      destruct o; step_cases; repeat case_decide;
      cbn [shm gens writes_issued sys_sup sys_shm sys_sems count_read count_shutdown_post];
      simplify_eq; known_fields; cbn [default from_option];
      (split; [eexists; split; [reflexivity|done]|done]).
  - unfold gen_step in H.
    destruct (gens σ !! i) as [g|] eqn:Eg; simpl in H; [|done].
    destruct (g_pc g) eqn:Epc; simpl in H; unfold sem_wait in H;
      destruct o; step_cases; repeat case_decide;
      repeat match goal with
      | E : propose _ = Some _ |- _ => apply propose_keeps in E as (? & ? & ?)
      end;
      cbn [shm gens writes_issued sys_sup sys_shm sys_sems sys_gen count_write];
      rewrite ?(tally_insert _ _ _ _ _ Eg), ?Epc;
      simplify_eq; known_fields;
      (split; [eexists; split; [reflexivity|done]|]);
      simpl in *; try lia; try congruence.
Qed.

(** X15. From a state in which [state] is 1, whatever the schedule,
    [state] stays 1 and the writes that pass [sem_wait(free_sem)] are at
    most the generators that had already passed the test of [state]: each
    generator issues at most one more write. *)
Theorem after_the_flag_at_most_one_write_each tr σ σ' m :
  shm σ = Some m -> state m = 1 ->
  run tr σ = Some σ' ->
  (exists m', shm σ' = Some m' /\ state m' = 1) /\
  writes_issued σ' <= writes_issued σ + tally may_write (gens σ) /\
  writes_issued σ' <= writes_issued σ + Z.of_nat (length (gens σ)).
Proof.
  intros Hm Hs Hrun.
  assert (I : flagged_inv (writes_issued σ + tally may_write (gens σ)) σ)
    by (split; [by exists m|lia]).
  pose proof (run_invariant _ (sys_step_flagged _) tr _ _ Hrun I) as [Hflag Hb].
  assert (Hn : forall gs, 0 <= tally may_write gs <= Z.of_nat (length gs)).
  { induction gs as [|g gs IH]; simpl; [lia|]. destruct (g_pc g); simpl; lia. }
  pose proof (Hn (gens σ)). pose proof (Hn (gens σ')).
  repeat split; try done; lia.
Qed.

Lemma after_the_signal_at_most_one_read_witness :
  quit (sup (after (repeat sup_ok 3) at_shutdown)) <> 0 /\
  reads_completed (after (repeat sup_ok 3) at_shutdown)
    <= reads_completed at_shutdown + pending_read (s_pc (sup at_shutdown)) /\
  reads_completed (after (repeat sup_ok 3) at_shutdown) <= reads_completed at_shutdown + 1.
Proof.
  apply (after_the_signal_at_most_one_read (repeat sup_ok 3) at_shutdown).
  - vm_compute. discriminate.
  - vm_compute. reflexivity.
Defined.

Lemma after_the_flag_at_most_one_write_each_witness :
  (exists m', shm (after [gen_ok 0] flag_raised) = Some m' /\ state m' = 1) /\
  writes_issued (after [gen_ok 0] flag_raised)
    <= writes_issued flag_raised + tally may_write (gens flag_raised) /\
  writes_issued (after [gen_ok 0] flag_raised)
    <= writes_issued flag_raised + Z.of_nat (length (gens flag_raised)).
Proof.
  apply (after_the_flag_at_most_one_write_each [gen_ok 0] flag_raised
           (after [gen_ok 0] flag_raised) (shm_state 1 (shm_generator_count 1 zero_shm))).
  - reflexivity.
  - reflexivity.
  - vm_compute. reflexivity.
Defined.

(** ** The verdict *)

Lemma elem_of_snoc_ne {A} (l : list A) (x y : A) : x <> y -> x ∈ l ++ [y] -> x ∈ l.
Proof.
  intros Hne H. apply elem_of_app in H as [H|H]; [done|].
  apply list_elem_of_singleton in H. done.
Qed.

Lemma sys_step_verdict ev σ σ' :
  sys_step ev σ = Some σ' -> verdict_inv σ -> verdict_inv σ'.
Proof.
  unfold verdict_inv. intros H (Hr & Hloop & Hadv & Hafter & Hthree).
  destruct ev as [|o|i o]; simpl in H.
  - unfold handle_signal in H.
    destruct (s_pc (sup σ)) eqn:Epc; simpl in H; step_cases; simpl; rewrite ?Epc; done.
  - unfold sup_step in H.
    destruct (s_pc (sup σ)) eqn:Epc;
      cbn [in_read_loop after_read_loop] in Hloop, Hafter;
      simpl in H; unfold sem_wait in H;
      destruct o; step_cases; repeat case_decide;
      cbn [sup s_out s_pc curr_best_solution temp reads_completed sys_sup sys_shm sys_sems
           count_read count_shutdown_post sup_at sup_best sup_print sup_fail sup_temp
           sup_rd_pos sup_r_count sup_fan_i in_read_loop after_read_loop];
      (split; [lia|]); (split; [intros ?; try done; eauto|]);
      (split; [intros [?|?]; try done; try lia; eauto|]);
      (split; [intros ? ?; try done; try lia; eauto|]);
      intros Hin;
      try (apply elem_of_snoc_ne in Hin; [|done]);
      try (apply elem_of_snoc_ne in Hin; [|done]);
      try (destruct (Hthree Hin) as (? & ? & ?); congruence).
    all: split; [done|split; [done|]].
    all: match goal with E : curr_best_solution _ = 0 |- _ => rewrite E end.
    all: apply elem_of_app; left; apply elem_of_app; right; by apply list_elem_of_singleton.
  - unfold gen_step in H.
    destruct (gens σ !! i) as [g|] eqn:Eg; simpl in H; [|done].
    destruct (g_pc g) eqn:Epc; simpl in H; unfold sem_wait in H;
      destruct o; step_cases; repeat case_decide; done.
Qed.

Lemma init_verdict leftover gs : verdict_inv (init_system leftover gs).
Proof.
  unfold verdict_inv, init_system. simpl.
  split; [lia|]. split; [done|]. split; [by intros [?|?]|]. split; [done|].
  intros H. by apply elem_of_nil in H.
Qed.

(** X16. In every session and after every schedule, the supervisor has
    printed "The graph is 3-colorable!" only if it has also printed
    "Best found solution: 0 edges", the last count [readBuff] returned is 0
    and at least one read was completed. *)
Theorem three_colorable_only_after_a_zero_read leftover gs tr σ :
  run tr (init_system leftover gs) = Some σ ->
  ThreeColorable ∈ s_out (sup σ) ->
  BestFound 0 ∈ s_out (sup σ) /\
  temp (sup σ) = 0 /\
  1 <= reads_completed σ.
Proof.
  intros Hrun Hin.
  pose proof (run_invariant _ sys_step_verdict tr _ _ Hrun (init_verdict leftover gs))
    as (_ & _ & _ & Hafter & Hthree).
  destruct (Hthree Hin) as (Hpc & Hbest & Hfound).
  rewrite Hpc in Hafter. destruct (Hafter eq_refl Hbest). done.
Qed.

Lemma three_colorable_only_after_a_zero_read_witness :
  BestFound 0 ∈ s_out (sup interrupted_on_empty_buffer) /\
  temp (sup interrupted_on_empty_buffer) = 0 /\
  1 <= reads_completed interrupted_on_empty_buffer.
Proof.
  apply (three_colorable_only_after_a_zero_read None [([(0, 1)], always_zero)]
           (repeat sup_ok 4 ++ [ESignal; ESup Failure] ++ repeat sup_ok 9)
           interrupted_on_empty_buffer).
  - vm_compute. reflexivity.
  - vm_compute. apply list_elem_of_In. simpl. tauto.
Defined.

(** ** The permits, with the posts of the final loop *)



(** ** The posts of the final loop *)







(** ** Teardown *)

Lemma attempt_app steps1 steps2 fails :
  attempt (steps1 ++ steps2) fails
  = match attempt steps1 fails with
    | (calls, Some msg) => (calls, Some msg)
    | (calls, None) => let '(calls2, diag) := attempt steps2 fails in (calls ++ calls2, diag)
    end.
Proof.
  induction steps1 as [|[c msg] rest IH]; simpl.
  - by destruct (attempt steps2 fails).
  - destruct (fails c); [done|]. rewrite IH.
    destruct (attempt rest fails) as [calls [m|]]; [done|].
    by destruct (attempt steps2 fails).
Qed.



